(** * fzf pattern matching: extended-query parser, Pattern memo table,
      match orchestration and chunk result cache (package fzf, pattern.go)

    A shallow embedding of package [fzf]'s pattern code: [parseTerms],
    [BuildPattern], [CacheKey], [Match], [matchChunk], [MatchItem],
    [dupItem], [basicMatch], [extendedMatch], [prepareInput] and [iter].
    Line numbers in the comments are those of the source file.

    Conventions.
    - A Go [string] is a byte string: Rocq's [string], one [ascii] per byte.
      [len], slicing and indexing count bytes, as in Go.
    - A [rune] is an [int32] code point, kept as a [Z].
    - Go's [int] is a 64-bit integer, kept as a [Z] with the wrap-around of
      each addition written out; the conversion [int32(x)] wraps to 32 bits.
    - A pointer is an index into an explicit heap. *)

From Stdlib Require Import ZArith Lia Bool Ascii.
From stdpp Require Import gmap strings list.

Definition rune := Z.

(** ** The Go runtime and standard-library functions the source calls *)

(** What the source takes from the Go runtime for text: [strings.ToLower]
    (Unicode case mapping) and the conversions [[]rune(s)] (UTF-8 decoding)
    and [string(rs)] (UTF-8 encoding).  They are kept abstract; the theorems
    hold for every implementation. *)
Class GoText := {
  ToLower : string -> string;
  runes_of_string : string -> list rune;
  string_of_runes : list rune -> string
}.

Module strings.

(** [len(s)] *)
Definition len (s : string) : nat := String.length s.

(** [s[i:j]]; the source only slices within bounds. *)
Definition slice (s : string) (i j : nat) : string :=
  String.substring i (j - i) s.

(** [func HasPrefix(s, prefix string) bool]:
    [len(s) >= len(prefix) && s[0:len(prefix)] == prefix] *)
Definition HasPrefix (s prefix : string) : bool :=
  (len prefix <=? len s) && String.eqb (slice s 0 (len prefix)) prefix.

(** [func HasSuffix(s, suffix string) bool]:
    [len(s) >= len(suffix) && s[len(s)-len(suffix):] == suffix] *)
Definition HasSuffix (s suffix : string) : bool :=
  (len suffix <=? len s)
  && String.eqb (slice s (len s - len suffix) (len s)) suffix.

Definition isBlank (c : ascii) : bool := Ascii.eqb c " ".

Fixpoint TrimLeftBlank (s : string) : string :=
  match s with
  | String c s' => if isBlank c then TrimLeftBlank s' else s
  | EmptyString => EmptyString
  end.

Fixpoint TrimRightBlank (s : string) : string :=
  match s with
  | String c s' =>
      match TrimRightBlank s' with
      | EmptyString => if isBlank c then EmptyString else String c EmptyString
      | r => String c r
      end
  | EmptyString => EmptyString
  end.

(** [strings.Trim(s, " ")]: leading and trailing bytes 0x20 removed. *)
Definition TrimBlank (s : string) : string := TrimRightBlank (TrimLeftBlank s).

(** [strings.Join(a, sep)] *)
Definition Join (a : list string) (sep : string) : string := String.concat sep a.

End strings.

Module regexp.

(** The class [\s] of Go's regexp syntax: tab, newline, form feed,
    carriage return and space. *)
Definition isSpace (c : ascii) : bool :=
  match c with
  | "009" | "010" | "012" | "013" | " " => true
  | _ => false
  end%char.

(** [cur] is the token being read, in reverse; [inRun] tells that the
    previous byte belonged to a separator. *)
Fixpoint splitFrom (cur : string) (inRun : bool) (s : string) : list string :=
  match s with
  | EmptyString => [String.rev cur]
  | String c s' =>
      if isSpace c then
        if inRun then splitFrom cur true s'
        else String.rev cur :: splitFrom EmptyString true s'
      else splitFrom (String c cur) false s'
  end.

(** [regexp.MustCompile("\\s+").Split(s, -1)]: the pieces of [s] between
    the maximal runs of [\s] bytes, empty first and last pieces included. *)
Definition Split (s : string) : list string := splitFrom EmptyString false s.

End regexp.

(** ** Query terms *)

Inductive termType := termFuzzy | termExact | termPrefix | termSuffix | termEqual.

Record term := mkTerm {
  t_typ : termType;
  t_inv : bool;
  t_text : list rune;
  t_caseSensitive : bool;
  t_origText : list rune
}.

Definition termSet := list term.

(** Modelled from the spec: the case mode [Case] with its constants
    [CaseSmart], [CaseIgnore] and [CaseRespect] is declared in another file
    of the package (the spec lists the modes Respect, Ignore and Smart). *)
Inductive Case := CaseSmart | CaseIgnore | CaseRespect.

Definition Case_eqb (a b : Case) : bool :=
  match a, b with
  | CaseSmart, CaseSmart | CaseIgnore, CaseIgnore | CaseRespect, CaseRespect => true
  | _, _ => false
  end.

Section Parser.
Context `{GoText}.

(** [caseMode == CaseRespect || caseMode == CaseSmart && text != lowerText] *)
Definition resolveCase (caseMode : Case) (text lowerText : string) : bool :=
  Case_eqb caseMode CaseRespect
  || (Case_eqb caseMode CaseSmart && negb (String.eqb text lowerText)).

(** Lines 207-212 of the loop body: the token after case folding, with the
    case sensitivity it resolved to. *)
Definition foldToken (caseMode : Case) (token : string) : bool * string :=
  let text := token in
  let lowerText := ToLower text in
  let caseSensitive := resolveCase caseMode text lowerText in
  (caseSensitive, if caseSensitive then text else lowerText).

(** Lines 223-226: a leading [!]. *)
Definition stripInv (text : string) : bool * string :=
  if strings.HasPrefix text "!" then (true, strings.slice text 1 (strings.len text))
  else (false, text).

(** Lines 228-248: the modifier chain; [typ] is the kind set so far. *)
Definition applyModifier (fuzzy : bool) (typ : termType) (text : string)
  : termType * string :=
  if strings.HasPrefix text "'" then
    if fuzzy then (termExact, strings.slice text 1 (strings.len text))
    else (termFuzzy, strings.slice text 1 (strings.len text))
  else if strings.HasPrefix text "^" then
    if strings.HasSuffix text "$" then
      (termEqual, strings.slice text 1 (strings.len text - 1))
    else (termPrefix, strings.slice text 1 (strings.len text))
  else if strings.HasSuffix text "$" then
    (termSuffix, strings.slice text 0 (strings.len text - 1))
  else (typ, text).

(** The variables the loop of [parseTerms] updates. *)
Record parseState := mkParseState {
  sets : list termSet;
  set : termSet;
  switchSet : bool
}.

(** One iteration of [for _, token := range tokens]. *)
Definition parseStep (fuzzy : bool) (caseMode : Case)
    (st : parseState) (token : string) : parseState :=
  let '(caseSensitive, text) := foldToken caseMode token in
  let origText := runes_of_string text in
  let typ := if fuzzy then termFuzzy else termExact in
  if String.eqb text "|" then
    mkParseState (sets st) (set st) false
  else
    let '(inv, text) := stripInv text in
    let '(typ, text) := applyModifier fuzzy typ text in
    if 0 <? strings.len text then
      let '(sets', set') :=
        if switchSet st then (sets st ++ [set st], []) else (sets st, set st) in
      mkParseState sets'
        (set' ++ [mkTerm typ inv (runes_of_string text) caseSensitive origText])
        true
    else st.

Definition parseLoop (fuzzy : bool) (caseMode : Case)
    (tokens : list string) (st : parseState) : parseState :=
  fold_left (parseStep fuzzy caseMode) tokens st.

Definition parseTerms (fuzzy : bool) (caseMode : Case) (str : string)
  : list termSet :=
  let tokens := regexp.Split str in
  let st := parseLoop fuzzy caseMode tokens (mkParseState [] [] false) in
  if 0 <? length (set st) then sets st ++ [set st] else sets st.

End Parser.

(** An implementation of [GoText] that is right on ASCII text: bytes
    [A]-[Z] map to [a]-[z], and a rune is the code of its byte. *)
Module AsciiText.

Definition lowerByte (c : ascii) : ascii :=
  let n := nat_of_ascii c in
  if (65 <=? n) && (n <=? 90) then ascii_of_nat (n + 32) else c.

Fixpoint lower (s : string) : string :=
  match s with
  | EmptyString => EmptyString
  | String c s' => String (lowerByte c) (lower s')
  end.

Fixpoint decode (s : string) : list rune :=
  match s with
  | EmptyString => []
  | String c s' => Z.of_nat (nat_of_ascii c) :: decode s'
  end.

Fixpoint encode (rs : list rune) : string :=
  match rs with
  | [] => EmptyString
  | r :: rs' => String (ascii_of_nat (Z.to_nat r)) (encode rs')
  end.

Definition text : GoText :=
  {| ToLower := lower; runes_of_string := decode; string_of_runes := encode |}.

End AsciiText.

(** ** Integers *)

(** Two's-complement wrap-around of [x] to [bits] bits. *)
Definition wrap (bits : Z) (x : Z) : Z :=
  ((x + 2 ^ (bits - 1)) mod 2 ^ bits - 2 ^ (bits - 1))%Z.

(** Addition on Go's [int]. *)
Definition addInt (a b : Z) : Z := wrap 64 (a + b).

(** The conversion [int32(x)]. *)
Definition int32 (x : Z) : Z := wrap 32 x.

(** ** Items, tokens and offsets *)

(** Modelled from the spec: [Token] is declared in another file of the
    package.  The spec's Field/Token is a projected sub-text with its
    prefix length and its trimmed length; these are the three fields that
    [iter] and [prepareInput] read and write. *)
Record Token := mkToken {
  k_text : list rune;
  prefixLength : Z;
  trimLength : Z
}.

(** Modelled from the spec: [Offset], declared in another file, is the
    span (start, end, field trim length) that the literal
    [Offset{int32(sidx), int32(eidx), int32(tlen)}] builds. *)
Definition Offset := (Z * Z * Z)%type.

(** Modelled from the spec: [Rank], declared in another file, by the
    literal [Rank{0, 0, item.index}] of [dupItem]. *)
Definition Rank := (Z * Z * Z)%type.

(** The signature of the functions of package [algo]:
    [func(caseSensitive bool, forward bool, text []rune, pattern []rune) (int, int)] *)
Definition matcher := bool -> bool -> list rune -> list rune -> Z * Z.

(** What this file uses from the rest of the package and from packages
    [algo], [util] and [sort]; kept abstract. *)
Class Env := {
  Delimiter : Type;
  Range : Type;
  OrigText : Type;
  Colors : Type;
  (** [Tokenize(text, delimiter)] and [Transform(tokens, nth)] *)
  Tokenize : list rune -> Delimiter -> list Token;
  Transform : list Token -> list Range -> list Token;
  (** [util.TrimLen] *)
  TrimLen : list rune -> Z;
  (** [sort.Sort(ByOrder(offsets))], as the slice it leaves behind *)
  sortByOrder : list Offset -> list Offset;
  (** package [algo] *)
  FuzzyMatch : matcher;
  EqualMatch : matcher;
  ExactMatchNaive : matcher;
  PrefixMatch : matcher;
  SuffixMatch : matcher
}.

Section Pattern.
Context `{GoText} `{Env}.

(** Modelled from the spec: [Item] is declared in another file of the
    package; its fields are those [dupItem] copies. *)
Record Item := mkItem {
  i_text : list rune;
  i_origText : OrigText;
  (** [nil] is [None] *)
  i_transformed : option (list Token);
  i_index : Z;
  i_offsets : list Offset;
  i_colors : Colors;
  i_rank : Rank
}.

(** Modelled from the spec: [Chunk], declared in another file, is an
    ordered batch of Items; it is kept by the items it holds. *)
Definition Chunk := list Item.

(** A [*Chunk]: the address tells chunks apart, [items] is what it points to. *)
Record ChunkPtr := mkChunkPtr {
  addr : nat;
  items : Chunk
}.

(** [procFun] is filled for all five kinds when the Pattern is built and
    never written again: a total function of the kind. *)
Record Pattern := mkPattern {
  p_fuzzy : bool;
  p_extended : bool;
  p_caseSensitive : bool;
  p_forward : bool;
  p_text : list rune;
  p_termSets : list termSet;
  p_cacheable : bool;
  p_delimiter : Delimiter;
  p_nth : list Range;
  p_procFun : termType -> matcher
}.

(** The five assignments [ptr.procFun[termFuzzy] = algo.FuzzyMatch], ... *)
Definition procFunTable (typ : termType) : matcher :=
  match typ with
  | termFuzzy => FuzzyMatch
  | termEqual => EqualMatch
  | termExact => ExactMatchNaive
  | termPrefix => PrefixMatch
  | termSuffix => SuffixMatch
  end.

(** *** The pattern memo table *)

(** The Patterns allocated so far ([heap], a [*Pattern] is an index into
    it) and the global [_patternCache]. *)
Record PatternStore := mkPatternStore {
  heap : list Pattern;
  _patternCache : gmap string nat
}.

(** [clearPatternCache] *)
Definition clearPatternCache (st : PatternStore) : PatternStore :=
  mkPatternStore (heap st) ∅.

(** The inner loop of [Loop:] in [BuildPattern]; [true] when it reaches
    [break Loop]. *)
Fixpoint breaksLoop (idx : nat) (termSet : termSet) : bool :=
  match termSet with
  | [] => false
  | term :: rest =>
      if (0 <? idx) || t_inv term then true else breaksLoop (S idx) rest
  end.

(** The outer loop; [cacheable] is the value of the variable on entry. *)
Fixpoint cacheableLoop (termSets : list termSet) (cacheable : bool) : bool :=
  match termSets with
  | [] => cacheable
  | termSet :: rest =>
      if breaksLoop 0 termSet then false else cacheableLoop rest cacheable
  end.

(** Lines 141-146: the key looked up in the memo table. *)
Definition normalize (extended : bool) (runes : list rune) : string :=
  if extended then strings.TrimBlank (string_of_runes runes)
  else string_of_runes runes.

(** Lines 153-188: the Pattern built on a miss, with the value of
    [asString] at line 196. *)
Definition newPattern (fuzzy extended : bool) (caseMode : Case) (forward : bool)
    (nth : list Range) (delimiter : Delimiter) (asString : string)
  : Pattern * string :=
  let '(caseSensitive, cacheable, termSets, asString) :=
    if extended then
      let termSets := parseTerms fuzzy caseMode asString in
      (true, cacheableLoop termSets true, termSets, asString)
    else
      let lowerString := ToLower asString in
      let caseSensitive :=
        Case_eqb caseMode CaseRespect
        || (Case_eqb caseMode CaseSmart && negb (String.eqb lowerString asString)) in
      (caseSensitive, true, [],
       if negb caseSensitive then lowerString else asString) in
  (mkPattern fuzzy extended caseSensitive forward (runes_of_string asString)
     termSets cacheable delimiter nth procFunTable,
   asString).

(** [BuildPattern]: the returned pointer and the store afterwards. *)
Definition BuildPattern (st : PatternStore) (fuzzy extended : bool)
    (caseMode : Case) (forward : bool) (nth : list Range)
    (delimiter : Delimiter) (runes : list rune) : nat * PatternStore :=
  let asString := normalize extended runes in
  match _patternCache st !! asString with
  | Some cached => (cached, st)
  | None =>
      let '(pattern, asString) :=
        newPattern fuzzy extended caseMode forward nth delimiter asString in
      let ptr := length (heap st) in
      (ptr, mkPatternStore (heap st ++ [pattern])
              (<[asString := ptr]> (_patternCache st)))
  end.

(** [IsEmpty] *)
Definition IsEmpty (p : Pattern) : bool :=
  if negb (p_extended p) then length (p_text p) =? 0
  else length (p_termSets p) =? 0.

(** [AsString] *)
Definition AsString (p : Pattern) : string := string_of_runes (p_text p).

(** The body of the loop of [CacheKey]:
    [len(termSet) == 1 && !termSet[0].inv]. *)
Definition cacheKeyStep (cacheableTerms : list string) (termSet : termSet)
  : list string :=
  match termSet with
  | [t] =>
      if negb (t_inv t) then cacheableTerms ++ [string_of_runes (t_origText t)]
      else cacheableTerms
  | _ => cacheableTerms
  end.

(** [CacheKey] *)
Definition CacheKey (p : Pattern) : string :=
  if negb (p_extended p) then AsString p
  else
    let cacheableTerms := fold_left cacheKeyStep (p_termSets p) [] in
    strings.Join cacheableTerms " ".

End Pattern.

Section Matching.
Context `{GoText} `{Env}.

(** *** The chunk result cache *)

(** Modelled from the spec: [ChunkCache] with [NewChunkCache], [Find] and
    [Add] is declared in another file of the package.  The spec gives its
    contract: results are stored per (chunk identity, key) and [Find]
    returns what [Add] stored, unchanged, until a bulk clear. *)
Definition ChunkCache := gmap (nat * string) (list Item).

(** Modelled from the spec: the cache before anything is stored. *)
Definition NewChunkCache : ChunkCache := ∅.

(** Modelled from the spec: [cached, found := cc.Find(chunk, key)]. *)
Definition Find (cc : ChunkCache) (chunk : ChunkPtr) (key : string)
  : option (list Item) :=
  cc !! (addr chunk, key).

(** Modelled from the spec: [cc.Add(chunk, key, list)]. *)
Definition Add (cc : ChunkCache) (chunk : ChunkPtr) (key : string)
    (list : list Item) : ChunkCache :=
  <[(addr chunk, key) := list]> cc.

(** [clearChunkCache] *)
Definition clearChunkCache (_ : ChunkCache) : ChunkCache := NewChunkCache.

(** *** Matching one item *)

(** [prepareInput]: the tokens, and the item after the assignment
    [item.transformed = ret].  ([Transform] and the slice literal both
    return a non-nil slice.) *)
Definition prepareInput (p : Pattern) (item : Item) : list Token * Item :=
  match i_transformed item with
  | Some transformed => (transformed, item)
  | None =>
      let ret :=
        if 0 <? length (p_nth p) then
          let tokens := Tokenize (i_text item) (p_delimiter p) in
          Transform tokens (p_nth p)
        else [mkToken (i_text item) 0 (TrimLen (i_text item))] in
      (ret, mkItem (i_text item) (i_origText item) (Some ret) (i_index item)
              (i_offsets item) (i_colors item) (i_rank item))
  end.

(** [iter] *)
Fixpoint iter (pfun : matcher) (tokens : list Token) (caseSensitive forward : bool)
    (pattern : list rune) : Z * Z * Z :=
  match tokens with
  | [] => (-1, -1, -1)%Z
  | part :: rest =>
      let prefixLength := prefixLength part in
      let '(sidx, eidx) := pfun caseSensitive forward (k_text part) pattern in
      if (0 <=? sidx)%Z then
        (addInt sidx prefixLength, addInt eidx prefixLength, trimLength part)
      else iter pfun rest caseSensitive forward pattern
  end.

(** [dupItem] *)
Definition dupItem (item : Item) (offsets : list Offset) : Item :=
  let offsets := sortByOrder offsets in
  mkItem (i_text item) (i_origText item) (i_transformed item) (i_index item)
    offsets (i_colors item) (0, 0, i_index item)%Z.

(** [basicMatch], with the item after [prepareInput]. *)
Definition basicMatch (p : Pattern) (item : Item) : (Z * Z * Z) * Item :=
  let '(input, item) := prepareInput p item in
  if p_fuzzy p then
    (iter FuzzyMatch input (p_caseSensitive p) (p_forward p) (p_text p), item)
  else
    (iter ExactMatchNaive input (p_caseSensitive p) (p_forward p) (p_text p), item).

(** How the inner loop of [extendedMatch] is left. *)
Inductive setOutcome :=
| BreakLoop                      (** [break Loop] *)
| Appended (offset : Offset)     (** an [append] followed by [break] *)
| Exhausted.                     (** the range over the terms ran out *)

(** [for _, term := range termSet] *)
Fixpoint termLoop (p : Pattern) (input : list Token) (termSet : termSet)
  : setOutcome :=
  match termSet with
  | [] => Exhausted
  | term :: rest =>
      let pfun := p_procFun p (t_typ term) in
      let '(sidx, eidx, tlen) :=
        iter pfun input (t_caseSensitive term) (p_forward p) (t_text term) in
      if (0 <=? sidx)%Z then
        if t_inv term then BreakLoop
        else Appended (int32 sidx, int32 eidx, int32 tlen)
      else if t_inv term then Appended (0, 0, 0)%Z
      else termLoop p input rest
  end.

(** [Loop: for _, termSet := range p.termSets] *)
Fixpoint setLoop (p : Pattern) (input : list Token) (termSets : list termSet)
    (offsets : list Offset) : list Offset :=
  match termSets with
  | [] => offsets
  | termSet :: rest =>
      match termLoop p input termSet with
      | BreakLoop => offsets
      | Appended offset => setLoop p input rest (offsets ++ [offset])
      | Exhausted => setLoop p input rest offsets
      end
  end.

(** [extendedMatch], with the item after [prepareInput]. *)
Definition extendedMatch (p : Pattern) (item : Item) : list Offset * Item :=
  let '(input, item) := prepareInput p item in
  (setLoop p input (p_termSets p) [], item).

(** [MatchItem], with the item after [prepareInput]. *)
Definition MatchItem (p : Pattern) (item : Item) : bool * Item :=
  if negb (p_extended p) then
    let '((sidx, _, _), item) := basicMatch p item in
    ((0 <=? sidx)%Z, item)
  else
    let '(offsets, item) := extendedMatch p item in
    (length offsets =? length (p_termSets p), item).

(** *** Matching a chunk *)

(** [matchChunk].  The items are scanned in order.  The write of
    [prepareInput] lands on the scanned item, which [dupItem] then copies:
    [dupItem] is given the item as [prepareInput] left it.  The scanned
    slice itself is not returned; nothing below depends on the memo its
    items hold afterwards. *)
Definition matchChunk (p : Pattern) (chunk : Chunk) : list Item :=
  if negb (p_extended p) then
    fold_left (fun matches item =>
      let '((sidx, eidx, tlen), item) := basicMatch p item in
      if (0 <=? sidx)%Z then
        matches ++ [dupItem item [(int32 sidx, int32 eidx, int32 tlen)]]
      else matches) chunk []
  else
    fold_left (fun matches item =>
      let '(offsets, item) := extendedMatch p item in
      if length offsets =? length (p_termSets p) then
        matches ++ [dupItem item offsets]
      else matches) chunk [].

(** The loop [Loop: for idx := 1; idx < len(cacheKey); idx++] of [Match]:
    the cached list at which it breaks, if it does.  [fuel] bounds the
    number of iterations left. *)
Fixpoint ancestorLoop (cc : ChunkCache) (chunk : ChunkPtr) (cacheKey : string)
    (idx fuel : nat) : option (list Item) :=
  match fuel with
  | 0 => None
  | S fuel' =>
      if idx <? strings.len cacheKey then
        let prefix := strings.slice cacheKey 0 (strings.len cacheKey - idx) in
        let suffix := strings.slice cacheKey idx (strings.len cacheKey) in
        match Find cc chunk prefix with
        | Some cached => Some cached
        | None =>
            match Find cc chunk suffix with
            | Some cached => Some cached
            | None => ancestorLoop cc chunk cacheKey (S idx) fuel'
            end
        end
      else None
  end.

(** The value of [space] at the call [p.matchChunk(space)]. *)
Definition searchSpace (cc : ChunkCache) (chunk : ChunkPtr) (cacheKey : string)
  : Chunk :=
  match ancestorLoop cc chunk cacheKey 1 (strings.len cacheKey) with
  | Some cached => cached
  | None => items chunk
  end.

(** [Match]: the returned list and the global [_cache] afterwards. *)
Definition Match (p : Pattern) (cc : ChunkCache) (chunk : ChunkPtr)
  : list Item * ChunkCache :=
  let cacheKey := CacheKey p in
  match (if p_cacheable p then Find cc chunk cacheKey else None) with
  | Some cached => (cached, cc)
  | None =>
      let space := searchSpace cc chunk cacheKey in
      let matches := matchChunk p space in
      (matches, if p_cacheable p then Add cc chunk cacheKey matches else cc)
  end.

End Matching.

(** ** The query grammar, as the specification words it *)

(** [s] starts with the byte [c]; [s] ends with the byte [c]. *)
Definition leads (c : ascii) (s : string) : Prop := exists u, s = String c u.
Definition trails (c : ascii) (s : string) : Prop :=
  exists u, s = u +:+ String c "".

(** The kind of a bare term, and the kind a leading quote flips it to. *)
Definition defaultKind (fuzzy : bool) : termType :=
  if fuzzy then termFuzzy else termExact.
Definition flippedKind (fuzzy : bool) : termType :=
  if fuzzy then termExact else termFuzzy.

(** "Strip a leading [!] -> inverted = true": [InvRule text inv body]. *)
Inductive InvRule : string -> bool -> string -> Prop :=
| inv_bang body : InvRule ("!" +:+ body) true body
| inv_none text : ~ leads "!" text -> InvRule text false text.

(** The modifier rules in priority order; each rule asks that the rules
    before it do not apply: [ModifierRule fuzzy body kind rest]. *)
Inductive ModifierRule (fuzzy : bool) : string -> termType -> string -> Prop :=
| rule_quote rest :
    ModifierRule fuzzy ("'" +:+ rest) (flippedKind fuzzy) rest
| rule_equal rest :
    ModifierRule fuzzy ("^" +:+ rest +:+ "$") termEqual rest
| rule_prefix rest :
    ~ trails "$" ("^" +:+ rest) ->
    ModifierRule fuzzy ("^" +:+ rest) termPrefix rest
| rule_suffix rest :
    ~ leads "'" (rest +:+ "$") -> ~ leads "^" (rest +:+ "$") ->
    ModifierRule fuzzy (rest +:+ "$") termSuffix rest
| rule_default body :
    ~ leads "'" body -> ~ leads "^" body -> ~ trails "$" body ->
    ModifierRule fuzzy body (defaultKind fuzzy) body.

(** What an iteration of [parseTerms] does with a token that yields the
    term [t]: lines 251-261. *)
Definition pushTerm (st : parseState) (t : term) : parseState :=
  mkParseState (if switchSet st then sets st ++ [set st] else sets st)
    ((if switchSet st then [] else set st) ++ [t]) true.

(** The invariant of the loop of [parseTerms]: no pushed group is empty,
    and the open group is not empty when the next term would push it. *)
Definition groupsOk (st : parseState) : Prop :=
  Forall (fun ts : termSet => ts <> []) (sets st)
  /\ (switchSet st = true -> set st <> []).

(** ** The terms of a query, token by token *)

Section TokenTerms.
Context `{GoText}.

(** The term lines 206-260 build from a token that yields one. *)
Definition tokenTerm (fuzzy : bool) (caseMode : Case) (token : string) : term :=
  let '(caseSensitive, text) := foldToken caseMode token in
  let '(inv, body) := stripInv text in
  let '(typ, rest) := applyModifier fuzzy (defaultKind fuzzy) body in
  mkTerm typ inv (runes_of_string rest) caseSensitive (runes_of_string text).

(** The terms gathered so far, in order. *)
Definition allTerms (st : parseState) : list term := concat (sets st) ++ set st.

End TokenTerms.

(** ** Extended evaluation, as the specification words it *)

Section Evaluation.
Context `{Env}.

(** The term [t] hits on [input]: the test [sidx >= 0] of [extendedMatch]. *)
Definition hits (p : Pattern) (input : list Token) (t : term) : bool :=
  let '(sidx, _, _) :=
    iter (p_procFun p (t_typ t)) input (t_caseSensitive t) (p_forward p)
      (t_text t) in
  (0 <=? sidx)%Z.

(** The offset of a hit, in the coordinates of the whole text. *)
Definition translatedOffset (p : Pattern) (input : list Token) (t : term)
  : Offset :=
  let '(sidx, eidx, tlen) :=
    iter (p_procFun p (t_typ t)) input (t_caseSensitive t) (p_forward p)
      (t_text t) in
  (int32 sidx, int32 eidx, int32 tlen).

(** A non-inverted term that misses: the next alternative is tried. *)
Definition passedOver (p : Pattern) (input : list Token) (t : term) : Prop :=
  t_inv t = false /\ hits p input t = false.

(** [Reaches p input termSet t]: [t] is a term of the group and every
    alternative before it was passed over. *)
Definition Reaches (p : Pattern) (input : list Token) (termSet : termSet)
    (t : term) : Prop :=
  exists before after,
    termSet = before ++ t :: after /\ Forall (passedOver p input) before.

(** A group is satisfied by a non-inverted term that hits or by an
    inverted term that does not. *)
Definition Satisfied (p : Pattern) (input : list Token) (termSet : termSet)
  : Prop :=
  exists t, Reaches p input termSet t /\ hits p input t = negb (t_inv t).

End Evaluation.

(** ** A whole line as the only field *)

Section WholeLine.
Context `{Env}.

(** The token [prepareInput] builds when there are no field ranges. *)
Definition wholeText (item : Item) : Token :=
  mkToken (i_text item) 0 (TrimLen (i_text item)).

(** The item after [prepareInput] stored that token. *)
Definition prepared (item : Item) : Item :=
  mkItem (i_text item) (i_origText item) (Some [wholeText item]) (i_index item)
    (i_offsets item) (i_colors item) (i_rank item).

End WholeLine.

(** ** The result cache, as the specification words it *)

(** [s] with its first [d] bytes removed. *)
Fixpoint removeFirst (d : nat) (s : string) : string :=
  match d, s with
  | S d', String _ s' => removeFirst d' s'
  | _, _ => s
  end.

(** The first [n] bytes of [s]. *)
Fixpoint keepFirst (n : nat) (s : string) : string :=
  match n, s with
  | S n', String c s' => String c (keepFirst n' s')
  | _, _ => EmptyString
  end.

(** [s] with its last [d] bytes removed. *)
Definition removeLast (d : nat) (s : string) : string :=
  keepFirst (String.length s - d) s.

(** The keys tried after the exact key: for [d = 1, 2, ...] below the
    length of the key, the key without its last [d] bytes, then the key
    without its first [d] bytes. *)
Definition ancestorKeys (key : string) : list string :=
  flat_map (fun d => [removeLast d key; removeFirst d key])
    (seq 1 (String.length key - 1)).

Section CacheSearch.
Context `{Env}.

(** The entry of the first key of [keys] that the cache holds for [chunk]. *)
Fixpoint firstCached (cc : ChunkCache) (chunk : ChunkPtr) (keys : list string)
  : option (list Item) :=
  match keys with
  | [] => None
  | key :: rest =>
      match Find cc chunk key with
      | Some cached => Some cached
      | None => firstCached cc chunk rest
      end
  end.

End CacheSearch.

(** ** The cache key, as the specification words it *)

Section KeyTexts.
Context `{GoText}.

(** The token yields a term: it is not [|] and text is left after the
    modifiers are stripped. *)
Definition yieldsTerm (fuzzy : bool) (caseMode : Case) (token : string) : bool :=
  let text := (foldToken caseMode token).2 in
  negb (String.eqb text "|")
  && (0 <? strings.len
            (applyModifier fuzzy (defaultKind fuzzy) (stripInv text).2).2).

(** "The space-joined original (pre-fold) texts": the tokens that yield a
    term, as typed. *)
Definition unfoldedKey (fuzzy : bool) (caseMode : Case) (str : string) : string :=
  strings.Join (List.filter (yieldsTerm fuzzy caseMode) (regexp.Split str)) " ".

(** The same tokens after case folding and through [[]rune] and back,
    which is what [origText] holds. *)
Definition foldedKey (fuzzy : bool) (caseMode : Case) (str : string) : string :=
  strings.Join
    (map (fun token =>
            string_of_runes (runes_of_string (foldToken caseMode token).2))
       (List.filter (yieldsTerm fuzzy caseMode) (regexp.Split str))) " ".

End KeyTexts.

(** ** Reference collaborators *)

(** Modelled from the spec: the matchers of package [algo], the field
    tokenizer and the offset order are declared in other files.  These
    are small implementations of the spec's matcher contract ("returns the
    match span (rune indices into text) or (-1, -1) if no match") on ASCII
    text, with no field ranges; they serve to run the code on concrete
    inputs. *)
Module Reference.

Definition lowerRune (r : rune) : rune :=
  if ((65 <=? r) && (r <=? 90))%Z then (r + 32)%Z else r.

Definition fold (caseSensitive : bool) (r : rune) : rune :=
  if caseSensitive then r else lowerRune r.

(** Left-most subsequence; [sidx] is the start found so far or [-1]. *)
Fixpoint fuzzyScan (cs : bool) (text pattern : list rune) (pos sidx : Z) : Z * Z :=
  match pattern, text with
  | [], _ => (sidx, pos)
  | _ :: _, [] => (-1, -1)%Z
  | q :: pattern', c :: text' =>
      if (fold cs c =? q)%Z then
        fuzzyScan cs text' pattern' (pos + 1) (if (sidx <? 0)%Z then pos else sidx)
      else fuzzyScan cs text' pattern (pos + 1) sidx
  end.

Definition fuzzy (cs forward : bool) (text pattern : list rune) : Z * Z :=
  match pattern with
  | [] => (0, 0)%Z
  | _ => fuzzyScan cs text pattern 0 (-1)
  end.

Fixpoint startsWith (cs : bool) (text pattern : list rune) : bool :=
  match pattern, text with
  | [], _ => true
  | _ :: _, [] => false
  | q :: pattern', c :: text' => (fold cs c =? q)%Z && startsWith cs text' pattern'
  end.

Fixpoint exactScan (cs : bool) (text pattern : list rune) (pos : Z) : Z * Z :=
  if startsWith cs text pattern then (pos, pos + Z.of_nat (length pattern))%Z
  else match text with
       | [] => (-1, -1)%Z
       | _ :: text' => exactScan cs text' pattern (pos + 1)
       end.

Definition exact (cs forward : bool) (text pattern : list rune) : Z * Z :=
  exactScan cs text pattern 0.

Definition prefix (cs forward : bool) (text pattern : list rune) : Z * Z :=
  if startsWith cs text pattern then (0, Z.of_nat (length pattern))%Z
  else (-1, -1)%Z.

Definition suffix (cs forward : bool) (text pattern : list rune) : Z * Z :=
  if startsWith cs (rev text) (rev pattern) then
    (Z.of_nat (length text) - Z.of_nat (length pattern), Z.of_nat (length text))%Z
  else (-1, -1)%Z.

Definition equal (cs forward : bool) (text pattern : list rune) : Z * Z :=
  if (length text =? length pattern) && startsWith cs text pattern then
    (0, Z.of_nat (length pattern))%Z
  else (-1, -1)%Z.

(** Offsets in the order of their start, then of their end. *)
Definition before (a b : Offset) : bool :=
  ((a.1.1 <? b.1.1) || ((a.1.1 =? b.1.1) && (a.1.2 <=? b.1.2)))%Z.

Fixpoint insert (o : Offset) (l : list Offset) : list Offset :=
  match l with
  | [] => [o]
  | x :: l' => if before o x then o :: l else x :: insert o l'
  end.

Definition sort (l : list Offset) : list Offset := foldr insert [] l.

Definition env : Env :=
  {| Delimiter := unit; Range := unit; OrigText := unit; Colors := unit;
     Tokenize := fun text _ => [mkToken text 0 (Z.of_nat (length text))];
     Transform := fun tokens _ => tokens;
     TrimLen := fun text => Z.of_nat (length text);
     sortByOrder := sort;
     FuzzyMatch := fuzzy; EqualMatch := equal; ExactMatchNaive := exact;
     PrefixMatch := prefix; SuffixMatch := suffix |}.

End Reference.

(** ** Concrete inputs *)

Module Examples.
#[local] Existing Instance AsciiText.text.
#[local] Existing Instance Reference.env.

(** The term a bare lower-case token [s] parses to. *)
Definition bare (fuzzy : bool) (caseMode : Case) (s : string) : term :=
  mkTerm (defaultKind fuzzy) false (AsciiText.decode s)
    (Case_eqb caseMode CaseRespect) (AsciiText.decode s).

(** A candidate line, as read: no projected fields yet, no offsets. *)
Definition line (index : Z) (s : string) : Item :=
  mkItem (AsciiText.decode s) tt None index [] tt (0, 0, 0)%Z.

Definition emptyStore : PatternStore := mkPatternStore [] ∅.

(** [BuildPattern] in extended fuzzy mode with smart case, no field
    ranges. *)
Definition build (st : PatternStore) (extended : bool) (caseMode : Case)
    (query : string) : nat * PatternStore :=
  BuildPattern st true extended caseMode true [] tt (AsciiText.decode query).

(** The Pattern a pointer refers to; the empty basic pattern stands for a
    dangling pointer. *)
Definition deref (r : nat * PatternStore) : Pattern :=
  default (mkPattern true false true true [] [] true tt [] procFunTable)
    (heap r.2 !! r.1).

Definition extendedPattern (caseMode : Case) (query : string) : Pattern :=
  deref (build emptyStore true caseMode query).

Definition chunkAt (a : nat) (lines : list string) : ChunkPtr :=
  mkChunkPtr a (imap (fun i s => line (Z.of_nat i) s) lines).

(** Three lines, and the cache after the query [fo] was matched against
    them. *)
Definition lines3 : ChunkPtr := chunkAt 0 ["foo"; "bar"; "fob"].
Definition cacheFo : ChunkCache :=
  (Match (extendedPattern CaseSmart "fo") NewChunkCache lines3).2.

(** The same three lines in a second chunk, and the cache [cacheFo] with
    an entry of that chunk under a longer key. *)
Definition lines3' : ChunkPtr := chunkAt 1 ["foo"; "bar"; "fob"].
Definition cacheFoFooo : ChunkCache := Add cacheFo lines3' "fooo" [].

(** The two bytes of the character e-acute in UTF-8, three lines, and the
    cache after the queries made of that character and of [ab] were
    matched against them. *)
Definition eAcute : string := String "195" (String "169" "").
Definition linesE : ChunkPtr :=
  chunkAt 0 [eAcute +:+ "ab"; "xab"; eAcute +:+ "x"].
Definition cacheE : ChunkCache :=
  (Match (extendedPattern CaseSmart "ab")
     (Match (extendedPattern CaseSmart eAcute) NewChunkCache linesE).2 linesE).2.

End Examples.


(** ** Blank bytes and empty tokens *)

(** Every byte of [s] is in the class [\s]. *)
Fixpoint onlySpace (s : string) : bool :=
  match s with
  | EmptyString => true
  | String c s' => regexp.isSpace c && onlySpace s'
  end.

(** The token is not the empty string. *)
Definition nonEmpty (s : string) : bool := negb (String.eqb s "").

(** ** One item of a chunk scan *)

Section ScanOne.
Context `{Env}.

(** The matcher does not hit on the field [k]. *)
Definition missesField (pfun : matcher) (cs fwd : bool) (pattern : list rune)
    (k : Token) : Prop :=
  ((pfun cs fwd (k_text k) pattern).1 < 0)%Z.

(** The offsets [matchChunk] hands to [dupItem] for an item it keeps:
    lines 338-340 and 345-346. *)
Definition matchOffsets (p : Pattern) (item : Item) : list Offset :=
  if negb (p_extended p) then
    let '(sidx, eidx, tlen) := (basicMatch p item).1 in
    [(int32 sidx, int32 eidx, int32 tlen)]
  else (extendedMatch p item).1.

(** The copy [matchChunk] appends for an item it keeps. *)
Definition matchedCopy (p : Pattern) (item : Item) : Item :=
  dupItem (prepareInput p item).2 (matchOffsets p item).

End ScanOne.

(** ** Well-formed stores and key groups *)

Section StoreShape.
Context `{Env}.

(** Every pointer of the memo table refers to an allocated Pattern. *)
Definition memoOk (st : PatternStore) : Prop :=
  forall key ptr, _patternCache st !! key = Some ptr -> ptr < length (heap st).

End StoreShape.

(** The group is a single term that is not inverted: the test of
    [CacheKey]. *)
Definition keyGroup (termSet : termSet) : bool :=
  match termSet with
  | [t] => negb (t_inv t)
  | _ => false
  end.

(** ** Package migemo: the compiled-pattern cache and [FindStringIndex] *)

(** [utf8.RuneCountInString] of the Go library, by its loop: a byte below
    0x80 is one rune; a lead byte opens a sequence of 2 to 4 bytes when the
    bytes that follow are there and in range; every other byte is one rune
    by itself. *)
Module utf8.

(** The table [first] with [acceptRanges]: for a lead byte, the size of the
    sequence and the range of its second byte; [None] is the entry [xx]. *)
Definition first (c : nat) : option (nat * (nat * nat)) :=
  if c <? 194 then None
  else if c <=? 223 then Some (2, (128, 191))
  else if c =? 224 then Some (3, (160, 191))
  else if c <=? 236 then Some (3, (128, 191))
  else if c =? 237 then Some (3, (128, 159))
  else if c <=? 239 then Some (3, (128, 191))
  else if c =? 240 then Some (4, (144, 191))
  else if c <=? 243 then Some (4, (128, 191))
  else if c =? 244 then Some (4, (128, 143))
  else None.

(** [c < lo || hi < c] *)
Definition outside (lo hi : nat) (c : ascii) : bool :=
  (nat_of_ascii c <? lo) || (hi <? nat_of_ascii c).

(** The number of bytes one iteration of the loop moves over, at the head
    of a non-empty [s]. *)
Definition size (s : string) : nat :=
  match s with
  | EmptyString => 1
  | String c rest =>
      if nat_of_ascii c <? 128 then 1
      else
        match first (nat_of_ascii c) with
        | None => 1
        | Some (size, (lo, hi)) =>
            if String.length s <? size then 1
            else
              match rest with
              | String c1 rest1 =>
                  if outside lo hi c1 then 1
                  else if size =? 2 then 2
                  else
                    match rest1 with
                    | String c2 rest2 =>
                        if outside 128 191 c2 then 1
                        else if size =? 3 then 3
                        else
                          match rest2 with
                          | String c3 _ => if outside 128 191 c3 then 1 else 4
                          | EmptyString => 1
                          end
                    | EmptyString => 1
                    end
              | EmptyString => 1
              end
        end
  end.

(** [skip] bytes of the current rune are still to be passed. *)
Fixpoint countFrom (skip : nat) (s : string) : nat :=
  match s with
  | EmptyString => 0
  | String c rest =>
      match skip with
      | S skip' => countFrom skip' rest
      | 0 => S (countFrom (size s - 1) rest)
      end
  end.

Definition RuneCountInString (s : string) : Z := Z.of_nat (countFrom 0 s).

End utf8.

(** A run of the program ends by a return or by [os.Exit]. *)
Inductive Run (A : Type) : Type :=
| Returned (a : A)
| Exited (stderr : string) (code : Z).
Arguments Returned {A} a.
Arguments Exited {A} stderr code.

Module migemo.

Section Lib.
(** The compiled expressions and the dictionary of the migemo and regexp
    libraries, [migemo.Compile] and the method [FindStringIndex] of a
    compiled expression ([None] is the nil slice). *)
Variables (Regexp Dict : Type).
Variable Compile : Dict -> string -> Regexp + string.
Variable reFindStringIndex : Regexp -> string -> option (nat * nat).

(** The globals [cache] and [dict].  The mutex serialises the calls of
    [regex]; the calls are taken one after the other here. *)
Record State := mkState {
  cache : gmap string Regexp;
  dict : Dict
}.

(** [errorExit] *)
Definition errorExit {A} (msg : string) : Run A :=
  Exited (msg +:+ String "010" "") 2.

(** [init], given the outcome of [embedict.Load()]. *)
Definition init (loaded : Dict + string) : Run State :=
  match loaded with
  | inl dict => Returned (mkState ∅ dict)
  | inr err => errorExit err
  end.

(** [regex] *)
Definition regex (st : State) (pattern : string) : Run (Regexp * State) :=
  match cache st !! pattern with
  | Some v => Returned (v, st)
  | None =>
      match Compile (dict st) pattern with
      | inr err => errorExit err
      | inl re => Returned (re, mkState (<[pattern := re]> (cache st)) (dict st))
      end
  end.

(** [FindStringIndex]: the returned slice ([[]] is nil) and the state. *)
Definition FindStringIndex (st : State) (s pattern : string)
  : Run (list Z * State) :=
  match regex st pattern with
  | Exited stderr code => Exited stderr code
  | Returned (v, st) =>
      match reFindStringIndex v s with
      | Some (i0, i1) =>
          let subString := strings.slice s i0 i1 in
          Returned ([utf8.RuneCountInString (strings.slice s 0 i0);
                     utf8.RuneCountInString subString], st)
      | None => Returned ([], st)
      end
  end.

End Lib.
End migemo.

(** Every byte of [s] is below 0x80. *)
Fixpoint isASCII (s : string) : bool :=
  match s with
  | EmptyString => true
  | String c s' => (nat_of_ascii c <? 128) && isASCII s'
  end.

(** ** The grouping of a query, as the specification words it *)

(** No byte of [s] is in the class [\s]: [s] is one token of the split. *)
Fixpoint noSpace (s : string) : bool :=
  match s with
  | EmptyString => true
  | String c s' => negb (regexp.isSpace c) && noSpace s'
  end.

(** A run of whitespace. *)
Definition separator (s : string) : bool := nonEmpty s && onlySpace s.

(** "A [|] token joins the next term into the current OR group": the last
    group of the query before the [|] takes in the first group of the
    query after it. *)
Definition joinOr (before after : list termSet) : list termSet :=
  match after with
  | [] => before
  | group :: rest =>
      match before with
      | [] => after
      | _ => List.removelast before ++ (List.last before [] ++ group) :: rest
      end
  end.

(** Lines 264-267 of [parseTerms]: the groups returned for the final
    state of the loop. *)
Definition closeLast (st : parseState) : list termSet :=
  if 0 <? length (set st) then sets st ++ [set st] else sets st.

(** The state of the loop, had the groups [pre] been closed before it
    started. *)
Definition closedBefore (pre : list termSet) (st : parseState) : parseState :=
  mkParseState (pre ++ sets st) (set st) (switchSet st).

(** The state of the loop, had it started with the groups [pre] closed and
    the group [open] still open. *)
Definition openBefore (pre : list termSet) (open : termSet) (st : parseState)
  : parseState :=
  match sets st with
  | [] => mkParseState pre (open ++ set st) (switchSet st)
  | group :: rest =>
      mkParseState (pre ++ (open ++ group) :: rest) (set st) (switchSet st)
  end.

(** ** The ancestor keys, counted in characters *)

(** The byte offsets at which the characters of [s] start, a character
    being a UTF-8 sequence as [utf8.RuneCountInString] counts them; [skip]
    bytes of the current character are still to be passed and [pos] is the
    offset of [s]. *)
Fixpoint charStarts (skip pos : nat) (s : string) : list nat :=
  match s with
  | EmptyString => []
  | String c rest =>
      match skip with
      | S skip' => charStarts skip' (S pos) rest
      | 0 => pos :: charStarts (utf8.size s - 1) (S pos) rest
      end
  end.

(** [s] with its last [d] characters removed, and with its first [d]
    characters removed. *)
Definition removeLastChars (d : nat) (s : string) : string :=
  let starts := charStarts 0 0 s in
  keepFirst (nth (length starts - d) starts (String.length s)) s.

Definition removeFirstChars (d : nat) (s : string) : string :=
  removeFirst (nth d (charStarts 0 0 s) (String.length s)) s.

(** "The key with its last [d] characters removed, then the key with its
    first [d] characters removed", for [d = 1, 2, ...] below the number of
    characters of the key. *)
Definition charAncestorKeys (key : string) : list string :=
  flat_map (fun d => [removeLastChars d key; removeFirstChars d key])
    (seq 1 (length (charStarts 0 0 key) - 1)).

(** * Properties *)

(** ** Byte strings *)

Section StringFacts.
Implicit Types (s u : string) (c d : ascii).

Lemma app_cons c s u : String c s +:+ u = String c (s +:+ u).
Proof. reflexivity. Qed.

Lemma len_app s u : strings.len (s +:+ u) = strings.len s + strings.len u.
Proof.
  unfold strings.len. induction s as [|c s IH]; [done|].
  rewrite app_cons. simpl. by rewrite IH.
Qed.

Lemma substring_0_0 s : String.substring 0 0 s = "".
Proof. by destruct s. Qed.

Lemma substring_all s : String.substring 0 (String.length s) s = s.
Proof. induction s as [|c s IH]; simpl; [done|by rewrite IH]. Qed.

Lemma substring_app_l s u : String.substring 0 (String.length s) (s +:+ u) = s.
Proof.
  induction s as [|c s IH]; [apply substring_0_0|].
  rewrite app_cons. simpl. by rewrite IH.
Qed.

Lemma substring_app_r s u n :
  String.substring (String.length s) n (s +:+ u) = String.substring 0 n u.
Proof. induction s as [|c s IH]; [done|]. rewrite app_cons. simpl. apply IH. Qed.

Lemma substring_split s n :
  String.substring 0 n s +:+ String.substring n (String.length s - n) s = s.
Proof.
  revert n; induction s as [|c s IH]; intros [|n]; try done.
  - simpl. by rewrite substring_all.
  - simpl. rewrite app_cons. by rewrite IH.
Qed.

(** [t[:len(t)-len(u)]] for [t = s ++ u] *)
Lemma slice_drop_last s u :
  strings.slice (s +:+ u) 0 (strings.len (s +:+ u) - strings.len u) = s.
Proof.
  unfold strings.slice. rewrite len_app.
  replace (strings.len s + strings.len u - strings.len u - 0) with (String.length s)
    by (unfold strings.len; lia).
  apply substring_app_l.
Qed.

(** [t[len(s):]] for [t = s ++ u] *)
Lemma slice_drop_first s u :
  strings.slice (s +:+ u) (strings.len s) (strings.len (s +:+ u)) = u.
Proof.
  unfold strings.slice. rewrite len_app.
  replace (strings.len s + strings.len u - strings.len s) with (String.length u)
    by (unfold strings.len; lia).
  unfold strings.len. rewrite substring_app_r. apply substring_all.
Qed.

Lemma HasPrefix_char s c :
  strings.HasPrefix s (String c "") = true <-> leads c s.
Proof.
  unfold strings.HasPrefix, strings.slice, leads. split.
  - destruct s as [|c' s]; [done|]. cbn. rewrite substring_0_0.
    destruct (Ascii.eqb_spec c' c) as [->|]; [by eexists|done].
  - intros [u ->]. cbn. rewrite substring_0_0. by rewrite Ascii.eqb_refl.
Qed.

Lemma HasSuffix_app s u : strings.HasSuffix (s +:+ u) u = true.
Proof.
  unfold strings.HasSuffix. apply andb_true_iff; split.
  - apply Nat.leb_le. rewrite len_app. lia.
  - replace (strings.len (s +:+ u) - strings.len u) with (strings.len s)
      by (rewrite len_app; lia).
    rewrite slice_drop_first. apply String.eqb_refl.
Qed.

Lemma HasSuffix_inv s u :
  strings.HasSuffix s u = true -> exists k, s = k +:+ u.
Proof.
  unfold strings.HasSuffix, strings.slice.
  intros [_ Heq%String.eqb_eq]%andb_true_iff.
  exists (String.substring 0 (strings.len s - strings.len u) s).
  rewrite <- Heq at 2. symmetry. apply substring_split.
Qed.

Lemma HasSuffix_char s c :
  strings.HasSuffix s (String c "") = true <-> trails c s.
Proof. split; [apply HasSuffix_inv|]. intros [k ->]. apply HasSuffix_app. Qed.

Lemma HasPrefix_char_false s c :
  strings.HasPrefix s (String c "") = false <-> ~ leads c s.
Proof. rewrite <- HasPrefix_char. by destruct (strings.HasPrefix _ _). Qed.

Lemma HasSuffix_char_false s c :
  strings.HasSuffix s (String c "") = false <-> ~ trails c s.
Proof. rewrite <- HasSuffix_char. by destruct (strings.HasSuffix _ _). Qed.

(** [t[1:]] for [t = c ++ s] *)
Lemma slice_tail c s : strings.slice (String c s) 1 (strings.len (String c s)) = s.
Proof. apply (slice_drop_first (String c "") s). Qed.

(** [t[:len(t)-1]] for [t = s ++ d] *)
Lemma slice_init s d :
  strings.slice (s +:+ String d "") 0 (strings.len (s +:+ String d "") - 1) = s.
Proof. apply (slice_drop_last s (String d "")). Qed.

(** [t[1:len(t)-1]] for [t = c ++ s ++ d] *)
Lemma slice_middle c s d :
  strings.slice (String c (s +:+ String d "")) 1
    (strings.len (String c (s +:+ String d "")) - 1) = s.
Proof.
  unfold strings.slice, strings.len. cbn [String.length String.substring].
  replace (S (String.length (s +:+ String d "")) - 1 - 1) with (String.length s).
  - apply substring_app_l.
  - pose proof (len_app s (String d "")) as Hl. unfold strings.len in Hl.
    rewrite Hl. simpl. lia.
Qed.

End StringFacts.

(** ** The parser *)

Section ParserFacts.
Context `{GoText}.
Implicit Types (fuzzy : bool) (caseMode : Case) (st : parseState).

Lemma stripInv_rule text inv body :
  stripInv text = (inv, body) <-> InvRule text inv body.
Proof.
  unfold stripInv. split.
  - destruct (strings.HasPrefix text "!") eqn:Hp; intros [= <- <-].
    + apply HasPrefix_char in Hp as [u ->]. rewrite slice_tail. apply inv_bang.
    + apply inv_none. by apply HasPrefix_char_false.
  - intros [body'|text' Hn].
    + change ("!" +:+ body') with (String "!" body').
      replace (strings.HasPrefix _ _) with true
        by (symmetry; apply HasPrefix_char; by eexists).
      by rewrite slice_tail.
    + apply HasPrefix_char_false in Hn. by rewrite Hn.
Qed.

Lemma applyModifier_rule fuzzy body typ rest :
  applyModifier fuzzy (defaultKind fuzzy) body = (typ, rest)
  <-> ModifierRule fuzzy body typ rest.
Proof.
  unfold applyModifier. split.
  - destruct (strings.HasPrefix body "'") eqn:Hq.
    { apply HasPrefix_char in Hq as [u ->]. rewrite slice_tail.
      destruct fuzzy; intros [= <- <-];
        [exact (rule_quote true u)|exact (rule_quote false u)]. }
    destruct (strings.HasPrefix body "^") eqn:Hc.
    { destruct (strings.HasSuffix body "$") eqn:Hd.
      - apply HasPrefix_char in Hc as [u ->].
        apply HasSuffix_char in Hd as [k Hk].
        destruct k as [|c k]; [by injection Hk|].
        rewrite app_cons in Hk. injection Hk as <- ->.
        rewrite slice_middle. intros [= <- <-]. exact (rule_equal fuzzy k).
      - apply HasSuffix_char_false in Hd.
        apply HasPrefix_char in Hc as [u ->]. rewrite slice_tail.
        intros [= <- <-]. exact (rule_prefix fuzzy u Hd). }
    apply HasPrefix_char_false in Hq, Hc.
    destruct (strings.HasSuffix body "$") eqn:Hd.
    + apply HasSuffix_char in Hd as [k ->]. rewrite slice_init.
      intros [= <- <-]. by apply rule_suffix.
    + apply HasSuffix_char_false in Hd. intros [= <- <-]. by apply rule_default.
  - intros [u|u|u Hd|u Hq Hc|b Hq Hc Hd].
    + change ("'" +:+ u) with (String "'" u).
      replace (strings.HasPrefix _ "'") with true
        by (symmetry; apply HasPrefix_char; by eexists).
      rewrite slice_tail. by destruct fuzzy.
    + change ("^" +:+ u +:+ "$") with (String "^" (u +:+ "$")).
      replace (strings.HasPrefix _ "'") with false by done.
      replace (strings.HasPrefix _ "^") with true
        by (symmetry; apply HasPrefix_char; by eexists).
      replace (strings.HasSuffix _ "$") with true
        by (symmetry; apply (HasSuffix_app (String "^" u) "$")).
      by rewrite slice_middle.
    + apply HasSuffix_char_false in Hd. rewrite Hd.
      change ("^" +:+ u) with (String "^" u).
      replace (strings.HasPrefix _ "'") with false by done.
      replace (strings.HasPrefix _ "^") with true
        by (symmetry; apply HasPrefix_char; by eexists).
      by rewrite slice_tail.
    + apply HasPrefix_char_false in Hq, Hc. rewrite Hq, Hc.
      rewrite HasSuffix_app. by rewrite slice_init.
    + apply HasPrefix_char_false in Hq, Hc. apply HasSuffix_char_false in Hd.
      by rewrite Hq, Hc, Hd.
Qed.

Lemma len_pos_nonempty s : (0 <? strings.len s) = negb (String.eqb s "").
Proof. by destruct s. Qed.

(** C7: for every token other than [|], exactly one pair of an inversion
    rule and a modifier rule applies to its (case-folded) text, in the
    stated priority order; the term the parser adds has the inverted flag,
    the kind and the stripped text those rules give, and a token whose
    stripped text is empty adds nothing. *)
Theorem parseStep_modifier_rules fuzzy caseMode st token cs text :
  foldToken caseMode token = (cs, text) ->
  text <> "|" ->
  exists inv body typ rest,
    InvRule text inv body /\ ModifierRule fuzzy body typ rest /\
    (forall inv' body' typ' rest',
        InvRule text inv' body' -> ModifierRule fuzzy body' typ' rest' ->
        inv' = inv /\ body' = body /\ typ' = typ /\ rest' = rest) /\
    parseStep fuzzy caseMode st token =
      if String.eqb rest "" then st
      else pushTerm st
             (mkTerm typ inv (runes_of_string rest) cs (runes_of_string text)).
Proof.
  intros Hfold Hbar.
  destruct (stripInv text) as [inv body] eqn:Hinv.
  destruct (applyModifier fuzzy (defaultKind fuzzy) body) as [typ rest] eqn:Hmod.
  exists inv, body, typ, rest. split; [by apply stripInv_rule|].
  split; [by apply applyModifier_rule|]. split.
  - intros inv' body' typ' rest' Hi Hm.
    apply stripInv_rule in Hi. rewrite Hinv in Hi. injection Hi as <- <-.
    apply applyModifier_rule in Hm. rewrite Hmod in Hm. by injection Hm as <- <-.
  - unfold parseStep. rewrite Hfold.
    apply String.eqb_neq in Hbar. rewrite Hbar, Hinv.
    fold (defaultKind fuzzy). rewrite Hmod, len_pos_nonempty.
    destruct (String.eqb rest ""); [done|]. unfold pushTerm.
    by destruct (switchSet st).
Qed.
End ParserFacts.

(** Witness for [parseStep_modifier_rules]: the token [^Foo$] under smart case. *)
Lemma parseStep_modifier_rules_witness :
  @foldToken AsciiText.text CaseSmart "^Foo$" = (true, "^Foo$") /\
  "^Foo$" <> "|" /\
  exists inv body typ rest,
    InvRule "^Foo$" inv body /\ ModifierRule true body typ rest /\
    (forall inv' body' typ' rest',
        InvRule "^Foo$" inv' body' -> ModifierRule true body' typ' rest' ->
        inv' = inv /\ body' = body /\ typ' = typ /\ rest' = rest) /\
    @parseStep AsciiText.text true CaseSmart (mkParseState [] [] false) "^Foo$" =
      if String.eqb rest "" then mkParseState [] [] false
      else pushTerm (mkParseState [] [] false)
             (mkTerm typ inv (AsciiText.decode rest) true (AsciiText.decode "^Foo$")).
Proof.
  split; [reflexivity|]. split; [discriminate|].
  apply (@parseStep_modifier_rules AsciiText.text true CaseSmart
           (mkParseState [] [] false) "^Foo$" true "^Foo$");
    [reflexivity|discriminate].
Defined.

Section ParseExamples.
#[local] Existing Instance AsciiText.text.

(** The three queries of the grammar on ASCII text, in every mode:
    ["a | b c"] parses to [[a,b],[c]], ["a b"] to [[a],[b]] and
    ["a | b | c"] to [[a,b,c]]. *)
Lemma parseTerms_three_queries (fuzzy : bool) (caseMode : Case) :
  let a := Examples.bare fuzzy caseMode "a" in
  let b := Examples.bare fuzzy caseMode "b" in
  let c := Examples.bare fuzzy caseMode "c" in
  parseTerms fuzzy caseMode "a | b c" = [[a; b]; [c]]
  /\ parseTerms fuzzy caseMode "a b" = [[a]; [b]]
  /\ parseTerms fuzzy caseMode "a | b | c" = [[a; b; c]].
Proof. destruct fuzzy, caseMode; vm_compute; done. Qed.
End ParseExamples.

(** ** Groups of [parseTerms] and the [cacheable] flag *)

Section Groups.
Context `{GoText}.
Implicit Types (fuzzy : bool) (caseMode : Case) (st : parseState).

Lemma parseStep_cases fuzzy caseMode st token :
  parseStep fuzzy caseMode st token = mkParseState (sets st) (set st) false
  \/ parseStep fuzzy caseMode st token = st
  \/ exists t, parseStep fuzzy caseMode st token = pushTerm st t.
Proof.
  unfold parseStep. destruct (foldToken caseMode token) as [cs text].
  destruct (String.eqb text "|"); [by left|]. right.
  destruct (stripInv text) as [inv body].
  destruct (applyModifier _ _ body) as [typ rest].
  destruct (0 <? strings.len rest); [right|by left].
  eexists. unfold pushTerm. by destruct (switchSet st).
Qed.

Lemma pushTerm_groupsOk st t : groupsOk st -> groupsOk (pushTerm st t).
Proof.
  intros [Hsets Hset]. unfold pushTerm. split; simpl.
  - destruct (switchSet st); [|done].
    apply Forall_app; split; [done|]. apply Forall_singleton. by apply Hset.
  - intros _. by destruct (if switchSet st then [] else set st).
Qed.

Lemma parseStep_groupsOk fuzzy caseMode st token :
  groupsOk st -> groupsOk (parseStep fuzzy caseMode st token).
Proof.
  intros Hok.
  destruct (parseStep_cases fuzzy caseMode st token) as [-> | [-> | [t ->]]].
  - destruct Hok as [Hsets _]. by split.
  - done.
  - by apply pushTerm_groupsOk.
Qed.

Lemma parseLoop_groupsOk fuzzy caseMode tokens st :
  groupsOk st -> groupsOk (parseLoop fuzzy caseMode tokens st).
Proof.
  unfold parseLoop. revert st.
  induction tokens as [|token tokens IH]; intros st Hok; [done|].
  simpl. apply IH. by apply parseStep_groupsOk.
Qed.

(** No group of a parsed query is empty. *)
Lemma parseTerms_nonempty fuzzy caseMode str :
  Forall (fun ts : termSet => ts <> []) (parseTerms fuzzy caseMode str).
Proof.
  unfold parseTerms.
  destruct (parseLoop_groupsOk fuzzy caseMode (regexp.Split str)
              (mkParseState [] [] false)) as [Hsets _].
  { split; [constructor|done]. }
  set (st := parseLoop _ _ _ _) in *.
  destruct (set st) as [|t ts] eqn:Hset; simpl; [done|].
  apply Forall_app; split; [done|]. by apply Forall_singleton.
Qed.

Lemma breaksLoop_false (termSet : termSet) :
  breaksLoop 0 termSet = false
  <-> termSet = [] \/ exists t, termSet = [t] /\ t_inv t = false.
Proof.
  destruct termSet as [|t [|t' rest]]; simpl.
  - split; [by left|done].
  - destruct (t_inv t) eqn:Hinv; split; try done.
    + intros [?|(t' & [= <-] & ?)]; congruence.
    + intros _. right. by exists t.
  - destruct (t_inv t); split; try done; intros [?|(? & ? & ?)]; done.
Qed.

Lemma cacheableLoop_true (termSets : list termSet) :
  cacheableLoop termSets true = true
  <-> Forall (fun ts => breaksLoop 0 ts = false) termSets.
Proof.
  induction termSets as [|ts rest IH]; simpl; [by split|].
  rewrite Forall_cons. destruct (breaksLoop 0 ts); [|tauto].
  split; [done|]. by intros [? _].
Qed.

(** The flag the loop computes, on groups none of which is empty. *)
Lemma cacheableLoop_singletons (termSets : list termSet) :
  Forall (fun ts : termSet => ts <> []) termSets ->
  cacheableLoop termSets true = true
  <-> Forall (fun ts : termSet => length ts = 1) termSets
      /\ Forall (fun t => t_inv t = false) (concat termSets).
Proof.
  intros Hne. rewrite cacheableLoop_true.
  induction Hne as [|ts rest Hts Hrest IH]; simpl; [by split|].
  rewrite !Forall_cons, Forall_app, IH, breaksLoop_false.
  split.
  - intros [[?|(t & -> & Hinv)] [? ?]]; [done|].
    repeat split; auto.
  - intros [[Hlen ?] [Hinv ?]]. split; [|done]. right.
    destruct ts as [|t [|? ?]]; try done.
    exists t. split; [done|]. by inversion Hinv.
Qed.
End Groups.

Section Construction.
Context `{GoText} `{Env}.

(** On a miss [BuildPattern] allocates the Pattern that [newPattern]
    describes and returns its address. *)
Lemma BuildPattern_miss st fuzzy extended caseMode forward nth delimiter runes :
  _patternCache st !! normalize extended runes = None ->
  let built :=
    newPattern fuzzy extended caseMode forward nth delimiter
      (normalize extended runes) in
  let r := BuildPattern st fuzzy extended caseMode forward nth delimiter runes in
  r.1 = length (heap st)
  /\ heap r.2 !! r.1 = Some built.1
  /\ _patternCache r.2 = <[built.2 := length (heap st)]> (_patternCache st).
Proof.
  intros Hmiss. unfold BuildPattern. rewrite Hmiss. simpl.
  destruct (newPattern _ _ _ _ _ _ _) as [pattern asString]. simpl.
  split; [done|]. split; [|done].
  rewrite lookup_app_r by done. by rewrite Nat.sub_diag.
Qed.

(** C3: the extended Pattern that [BuildPattern] constructs holds the
    groups of [parseTerms], and its [cacheable] flag is true exactly when
    every group has exactly one term and no term is inverted. *)
Theorem BuildPattern_cacheable_iff st fuzzy caseMode forward nth delimiter runes :
  _patternCache st !! normalize true runes = None ->
  exists p,
    let r := BuildPattern st fuzzy true caseMode forward nth delimiter runes in
    heap r.2 !! r.1 = Some p
    /\ p_extended p = true
    /\ p_termSets p = parseTerms fuzzy caseMode (normalize true runes)
    /\ (p_cacheable p = true
        <-> Forall (fun ts : termSet => length ts = 1) (p_termSets p)
            /\ Forall (fun t => t_inv t = false) (concat (p_termSets p))).
Proof.
  intros Hmiss.
  destruct (BuildPattern_miss st fuzzy true caseMode forward nth delimiter runes
              Hmiss) as (_ & Hp & _).
  eexists. split; [exact Hp|]. simpl. split; [done|]. split; [done|].
  apply cacheableLoop_singletons, parseTerms_nonempty.
Qed.
End Construction.

(** ** The cache key of an extended Pattern *)

Section CacheKeys.
Context `{GoText} `{Env}.
Implicit Types (fuzzy : bool) (caseMode : Case) (st : parseState).

Lemma pushTerm_allTerms st t : allTerms (pushTerm st t) = allTerms st ++ [t].
Proof.
  unfold allTerms, pushTerm. simpl. destruct (switchSet st); simpl.
  - rewrite concat_app. simpl. by rewrite app_nil_r.
  - by rewrite app_assoc.
Qed.

Lemma parseStep_allTerms fuzzy caseMode st token :
  allTerms (parseStep fuzzy caseMode st token)
  = allTerms st
    ++ (if yieldsTerm fuzzy caseMode token
        then [tokenTerm fuzzy caseMode token] else []).
Proof.
  unfold parseStep, yieldsTerm, tokenTerm.
  destruct (foldToken caseMode token) as [cs text]. simpl.
  destruct (String.eqb text "|"); simpl; [by rewrite app_nil_r|].
  destruct (stripInv text) as [inv body]. simpl.
  fold (defaultKind fuzzy).
  destruct (applyModifier _ _ body) as [typ rest]. simpl.
  destruct (0 <? strings.len rest); [|by rewrite app_nil_r].
  rewrite <- pushTerm_allTerms. unfold pushTerm. by destruct (switchSet st).
Qed.

Lemma parseLoop_allTerms fuzzy caseMode tokens st :
  allTerms (parseLoop fuzzy caseMode tokens st)
  = allTerms st
    ++ map (tokenTerm fuzzy caseMode)
         (List.filter (yieldsTerm fuzzy caseMode) tokens).
Proof.
  unfold parseLoop. revert st.
  induction tokens as [|token tokens IH]; intros st; simpl.
  - by rewrite app_nil_r.
  - rewrite IH, parseStep_allTerms.
    destruct (yieldsTerm fuzzy caseMode token); simpl.
    + by rewrite <- app_assoc.
    + by rewrite app_nil_r.
Qed.

(** The terms of a parsed query, group after group, are the terms of the
    tokens that yield one, in the order of the tokens. *)
Lemma parseTerms_terms fuzzy caseMode str :
  concat (parseTerms fuzzy caseMode str)
  = map (tokenTerm fuzzy caseMode)
      (List.filter (yieldsTerm fuzzy caseMode) (regexp.Split str)).
Proof.
  unfold parseTerms.
  pose proof (parseLoop_allTerms fuzzy caseMode (regexp.Split str)
                (mkParseState [] [] false)) as Hall.
  set (st := parseLoop _ _ _ _) in *. unfold allTerms in Hall. simpl in Hall.
  rewrite <- Hall. destruct (set st) as [|t ts]; simpl.
  - by rewrite app_nil_r.
  - by rewrite concat_app; simpl; rewrite app_nil_r.
Qed.

(** [origText] is the token after case folding, modifiers included. *)
Lemma tokenTerm_origText fuzzy caseMode token :
  t_origText (tokenTerm fuzzy caseMode token)
  = runes_of_string (foldToken caseMode token).2.
Proof.
  unfold tokenTerm. destruct (foldToken caseMode token) as [cs text].
  destruct (stripInv text) as [inv body].
  by destruct (applyModifier _ _ body) as [typ rest].
Qed.

Lemma cacheKeyStep_singletons (termSets : list termSet) (acc : list string) :
  Forall (fun ts : termSet => length ts = 1) termSets ->
  Forall (fun t => t_inv t = false) (concat termSets) ->
  fold_left cacheKeyStep termSets acc
  = acc ++ map (fun t => string_of_runes (t_origText t)) (concat termSets).
Proof.
  revert acc. induction termSets as [|ts rest IH]; intros acc Hlen Hinv; simpl.
  - by rewrite app_nil_r.
  - apply Forall_cons in Hlen as [Hts Hlen].
    destruct ts as [|t [|? ?]]; try done. simpl in Hinv.
    apply Forall_cons in Hinv as [Ht Hinv].
    simpl. rewrite Ht. simpl. rewrite IH by done. by rewrite <- app_assoc.
Qed.

(** The key of an extended Pattern whose groups are all single and not
    inverted joins the [origText] of its terms. *)
Lemma CacheKey_singletons (p : Pattern) :
  p_extended p = true ->
  Forall (fun ts : termSet => length ts = 1) (p_termSets p) ->
  Forall (fun t => t_inv t = false) (concat (p_termSets p)) ->
  CacheKey p
  = strings.Join
      (map (fun t => string_of_runes (t_origText t)) (concat (p_termSets p))) " ".
Proof.
  intros Hext Hlen Hinv. unfold CacheKey. rewrite Hext. simpl.
  by rewrite cacheKeyStep_singletons.
Qed.

(** C5, amended: the key of the cacheable extended Pattern that
    [BuildPattern] constructs joins, with single spaces and in group
    order, the [origText] of its terms, and the [origText] of a term is
    its token with the modifiers, AFTER case folding (lower-cased when the
    term resolved case-insensitive), through [[]rune] and back. *)
Theorem CacheKey_folded_texts (st : PatternStore) fuzzy caseMode forward nth
    delimiter runes :
  _patternCache st !! normalize true runes = None ->
  exists p,
    let r := BuildPattern st fuzzy true caseMode forward nth delimiter runes in
    heap r.2 !! r.1 = Some p
    /\ map t_origText (concat (p_termSets p))
       = map (fun token => runes_of_string (foldToken caseMode token).2)
           (List.filter (yieldsTerm fuzzy caseMode)
              (regexp.Split (normalize true runes)))
    /\ (p_cacheable p = true ->
        CacheKey p = foldedKey fuzzy caseMode (normalize true runes)).
Proof.
  intros Hmiss.
  destruct (BuildPattern_miss st fuzzy true caseMode forward nth delimiter runes
              Hmiss) as (_ & Hp & _).
  eexists. split; [exact Hp|].
  set (p := (newPattern _ _ _ _ _ _ _).1).
  assert (p_termSets p = parseTerms fuzzy caseMode (normalize true runes))
    as Hsets by done.
  assert (map t_origText (concat (p_termSets p))
          = map (fun token => runes_of_string (foldToken caseMode token).2)
              (List.filter (yieldsTerm fuzzy caseMode)
                 (regexp.Split (normalize true runes)))) as Horig.
  { rewrite Hsets, parseTerms_terms, map_map.
    apply map_ext. intros token. apply tokenTerm_origText. }
  split; [exact Horig|].
  intros Hc. change (p_cacheable p) with (cacheableLoop (p_termSets p) true) in Hc.
  apply cacheableLoop_singletons in Hc as [Hlen Hinv];
    [|rewrite Hsets; apply parseTerms_nonempty].
  rewrite CacheKey_singletons by done. unfold foldedKey.
  rewrite <- (map_map t_origText string_of_runes), Horig. by rewrite map_map.
Qed.
End CacheKeys.

(** ** Extended evaluation *)

Section ExtendedMatch.
Context `{Env}.
Implicit Types (p : Pattern) (input : list Token) (t : term)
  (termSet : termSet) (offs : list Offset).

(** [iter] returns the span of the first field on which the matcher hits,
    moved by the prefix length of the field, with the trim length of the
    field; and (-1,-1,-1) when the matcher hits on no field. *)
Lemma iter_first_hit (pfun : matcher) before part after cs fwd pattern sidx eidx :
  Forall (fun k => ((pfun cs fwd (k_text k) pattern).1 < 0)%Z) before ->
  pfun cs fwd (k_text part) pattern = (sidx, eidx) -> (0 <= sidx)%Z ->
  iter pfun (before ++ part :: after) cs fwd pattern
  = (addInt sidx (prefixLength part), addInt eidx (prefixLength part),
     trimLength part).
Proof.
  intros Hbefore Hpart Hsidx. induction Hbefore as [|k before Hk _ IH]; simpl.
  - rewrite Hpart. by apply Z.leb_le in Hsidx as ->.
  - destruct (pfun cs fwd (k_text k) pattern) as [s e]. simpl in Hk.
    by apply Z.leb_gt in Hk as ->.
Qed.

Lemma iter_no_hit (pfun : matcher) tokens cs fwd pattern :
  Forall (fun k => ((pfun cs fwd (k_text k) pattern).1 < 0)%Z) tokens ->
  iter pfun tokens cs fwd pattern = (-1, -1, -1)%Z.
Proof.
  induction 1 as [|k tokens Hk _ IH]; simpl; [done|].
  destruct (pfun cs fwd (k_text k) pattern) as [s e]. simpl in Hk.
  by apply Z.leb_gt in Hk as ->.
Qed.

(** One alternative, read through [hits] and [translatedOffset]. *)
Lemma termLoop_cons p input t rest :
  termLoop p input (t :: rest)
  = if hits p input t then
      if t_inv t then BreakLoop else Appended (translatedOffset p input t)
    else if t_inv t then Appended (0, 0, 0)%Z
    else termLoop p input rest.
Proof.
  unfold hits, translatedOffset. simpl.
  by destruct (iter (p_procFun p (t_typ t)) input (t_caseSensitive t)
                (p_forward p) (t_text t)) as [[sidx eidx] tlen].
Qed.

(** Alternatives that are passed over do not change the outcome. *)
Lemma termLoop_skip p input before tail :
  Forall (passedOver p input) before ->
  termLoop p input (before ++ tail) = termLoop p input tail.
Proof.
  induction 1 as [|t before [Hinv Hmiss] _ IH]; [done|].
  rewrite <- app_comm_cons, termLoop_cons. by rewrite Hmiss, Hinv.
Qed.

Lemma termLoop_reached p input termSet t :
  Reaches p input termSet t ->
  termLoop p input termSet
  = if hits p input t then
      if t_inv t then BreakLoop else Appended (translatedOffset p input t)
    else if t_inv t then Appended (0, 0, 0)%Z
    else termLoop p input termSet.
Proof.
  intros (before & after & -> & Hbefore).
  rewrite termLoop_skip by done. rewrite termLoop_cons.
  by destruct (hits p input t), (t_inv t).
Qed.

(** The inner loop ends by an [append] exactly on a satisfied group. *)
Lemma termLoop_satisfied p input termSet :
  (exists o, termLoop p input termSet = Appended o) <-> Satisfied p input termSet.
Proof.
  split.
  - induction termSet as [|t rest IH]; [by intros [? ?]|].
    rewrite termLoop_cons.
    destruct (hits p input t) eqn:Hhit, (t_inv t) eqn:Hinv.
    + by intros [? ?].
    + intros _. exists t. split; [by exists [], rest|]. by rewrite Hhit, Hinv.
    + intros _. exists t. split; [by exists [], rest|]. by rewrite Hhit, Hinv.
    + intros Hrest. destruct (IH Hrest) as (u & (before & after & -> & Hb) & Hu).
      exists u. split; [|done]. exists (t :: before), after.
      split; [done|]. by constructor.
  - intros (t & Hreach & Hsat). rewrite (termLoop_reached p input termSet t Hreach).
    rewrite Hsat. destruct (t_inv t); simpl; by eexists.
Qed.

(** Each group adds at most one offset; all of them do exactly when every
    inner loop ends by an [append]. *)
Lemma setLoop_length p input termSets offs :
  length (setLoop p input termSets offs) <= length offs + length termSets
  /\ (length (setLoop p input termSets offs) = length offs + length termSets
      <-> Forall (fun ts => exists o, termLoop p input ts = Appended o) termSets).
Proof.
  revert offs. induction termSets as [|ts rest IH]; intros offs; simpl.
  - split; [lia|]. split; [done|lia].
  - rewrite Forall_cons. destruct (termLoop p input ts) as [|o|] eqn:Hts.
    + split; [lia|]. split; [lia|]. by intros [[? ?] _].
    + destruct (IH (offs ++ [o])) as [Hle Heq].
      rewrite length_app in Hle, Heq. simpl in Hle, Heq. split; [lia|].
      rewrite <- Heq. split; [intros ?; split; [by eexists|lia]|intros [_ ?]; lia].
    + destruct (IH offs) as [Hle _]. split; [lia|].
      split; [lia|]. by intros [[? ?] _].
Qed.

Lemma setLoop_satisfied p input termSets :
  length (setLoop p input termSets []) = length termSets
  <-> Forall (Satisfied p input) termSets.
Proof.
  destruct (setLoop_length p input termSets []) as [_ Heq]. simpl in Heq.
  rewrite Heq. apply Forall_iff. intros ts. apply termLoop_satisfied.
Qed.

(** C1: extended evaluation of a Pattern against an Item.  The item
    matches iff the number of collected offsets equals the number of
    groups, iff every group is satisfied.  When the group under evaluation
    reaches a non-inverted term that hits, the translated offset of the
    term is appended and evaluation goes on with the next group; when it
    reaches an inverted term that hits, evaluation stops with the offsets
    collected so far, whatever groups remain, and the item does not match;
    when it reaches an inverted term that does not hit, the placeholder
    (0,0,0) is appended and evaluation goes on with the next group. *)
Theorem extendedMatch_semantics p (item : Item) :
  p_extended p = true ->
  let input := (prepareInput p item).1 in
  ((MatchItem p item).1 = true
   <-> length (extendedMatch p item).1 = length (p_termSets p))
  /\ ((MatchItem p item).1 = true
      <-> Forall (Satisfied p input) (p_termSets p))
  /\ (forall termSet rest offs t,
        Reaches p input termSet t -> t_inv t = false -> hits p input t = true ->
        setLoop p input (termSet :: rest) offs
        = setLoop p input rest (offs ++ [translatedOffset p input t]))
  /\ (forall termSet rest offs t,
        Reaches p input termSet t -> t_inv t = true -> hits p input t = true ->
        setLoop p input (termSet :: rest) offs = offs
        /\ (forall earlier, p_termSets p = earlier ++ termSet :: rest ->
              (MatchItem p item).1 = false))
  /\ (forall termSet rest offs t,
        Reaches p input termSet t -> t_inv t = true -> hits p input t = false ->
        setLoop p input (termSet :: rest) offs
        = setLoop p input rest (offs ++ [(0, 0, 0)%Z])).
Proof.
  intros Hext input.
  assert ((MatchItem p item).1 = true
          <-> length (extendedMatch p item).1 = length (p_termSets p)) as Hlen.
  { unfold MatchItem, extendedMatch. rewrite Hext. simpl.
    destruct (prepareInput p item) as [inp item']. simpl.
    apply Nat.eqb_eq. }
  assert ((MatchItem p item).1 = true
          <-> Forall (Satisfied p input) (p_termSets p)) as Hsat.
  { rewrite Hlen. unfold extendedMatch, input.
    destruct (prepareInput p item) as [inp item']. simpl.
    apply setLoop_satisfied. }
  split; [exact Hlen|]. split; [exact Hsat|]. split; [|split].
  - intros termSet rest offs t Hreach Hinv Hhit. simpl.
    by rewrite (termLoop_reached p input termSet t Hreach), Hhit, Hinv.
  - intros termSet rest offs t Hreach Hinv Hhit. split.
    + simpl. by rewrite (termLoop_reached p input termSet t Hreach), Hhit, Hinv.
    + intros earlier Hsets. apply not_true_is_false. rewrite Hsat, Hsets.
      rewrite Forall_app, Forall_cons. intros (_ & Hthis & _).
      apply termLoop_satisfied in Hthis as [o Ho].
      by rewrite (termLoop_reached p input termSet t Hreach), Hhit, Hinv in Ho.
  - intros termSet rest offs t Hreach Hinv Hhit. simpl.
    by rewrite (termLoop_reached p input termSet t Hreach), Hhit, Hinv.
Qed.
End ExtendedMatch.

(** ** The search for a cached ancestor *)

Section AncestorSearch.
Context `{GoText} `{Env}.
Implicit Types (p : Pattern) (cc : ChunkCache) (chunk : ChunkPtr) (key : string).

Lemma keepFirst_substring n s : keepFirst n s = String.substring 0 n s.
Proof.
  revert n. induction s as [|c s IH]; intros [|n]; simpl; try done.
  by rewrite IH.
Qed.

Lemma removeFirst_substring d s :
  removeFirst d s = String.substring d (String.length s - d) s.
Proof.
  revert d. induction s as [|c s IH]; intros [|d]; simpl; try done.
  by rewrite substring_all.
Qed.

(** [cacheKey[:len(cacheKey)-idx]] and [cacheKey[idx:]] *)
Lemma slice_removeLast key idx :
  strings.slice key 0 (strings.len key - idx) = removeLast idx key.
Proof.
  unfold strings.slice, removeLast, strings.len.
  by rewrite keepFirst_substring, Nat.sub_0_r.
Qed.

Lemma slice_removeFirst key idx :
  strings.slice key idx (strings.len key) = removeFirst idx key.
Proof. unfold strings.slice, strings.len. by rewrite removeFirst_substring. Qed.

(** With enough iterations left, the loop finds the first cached key among
    those of the drop lengths [idx], [idx + 1], ... below [len(cacheKey)]. *)
Lemma ancestorLoop_firstCached cc chunk key fuel idx :
  strings.len key - idx <= fuel ->
  ancestorLoop cc chunk key idx fuel
  = firstCached cc chunk
      (flat_map (fun d => [removeLast d key; removeFirst d key])
         (seq idx (strings.len key - idx))).
Proof.
  revert idx. induction fuel as [|fuel IH]; intros idx Hfuel.
  - by replace (strings.len key - idx) with 0 by lia.
  - cbn [ancestorLoop]. rewrite slice_removeLast, slice_removeFirst.
    destruct (idx <? strings.len key) eqn:Hlt.
    + apply Nat.ltb_lt in Hlt.
      replace (strings.len key - idx) with (S (strings.len key - S idx)) by lia.
      cbn [seq flat_map app firstCached].
      destruct (Find cc chunk (removeLast idx key)); [done|].
      destruct (Find cc chunk (removeFirst idx key)); [done|].
      apply IH. lia.
    + apply Nat.ltb_ge in Hlt.
      by replace (strings.len key - idx) with 0 by lia.
Qed.

(** The scan space is the entry of the first cached key among the
    ancestors of the key, and the chunk itself when none is cached. *)
Lemma searchSpace_firstCached cc chunk key :
  searchSpace cc chunk key
  = default (items chunk) (firstCached cc chunk (ancestorKeys key)).
Proof.
  unfold searchSpace, ancestorKeys.
  rewrite ancestorLoop_firstCached by lia. done.
Qed.

(** C8, amended: when the exact key misses, [Match] tries, for the drop
    lengths d = 1, 2, ... below the length of the key in bytes, the key
    without its last d bytes and then the key without its first d bytes
    (bytes, not characters); the items of the first entry found are what
    it scans, and it scans the chunk itself when no ancestor is cached. *)
Theorem Match_ancestor_order p cc chunk :
  Find cc chunk (CacheKey p) = None ->
  let found := firstCached cc chunk (ancestorKeys (CacheKey p)) in
  searchSpace cc chunk (CacheKey p) = default (items chunk) found
  /\ (Match p cc chunk).1 = matchChunk p (default (items chunk) found)
  /\ (forall cached, found = Some cached ->
        (Match p cc chunk).1 = matchChunk p cached)
  /\ (found = None -> (Match p cc chunk).1 = matchChunk p (items chunk)).
Proof.
  intros Hmiss found.
  assert ((Match p cc chunk).1 = matchChunk p (default (items chunk) found))
    as Hscan.
  { unfold Match. rewrite Hmiss. destruct (p_cacheable p); simpl;
      by rewrite searchSpace_firstCached. }
  split; [apply searchSpace_firstCached|]. split; [exact Hscan|].
  split; [intros cached Hfound|intros Hfound]; by rewrite Hscan, Hfound.
Qed.

(** C4, amended: for a Pattern that is not cacheable, [Match] never
    returns a cached result and never stores its result, but it does narrow
    the scan to the first cached ancestor of its key; it scans the whole
    chunk when no ancestor of the key is cached. *)
Theorem Match_not_cacheable p cc chunk :
  p_cacheable p = false ->
  let found := firstCached cc chunk (ancestorKeys (CacheKey p)) in
  Match p cc chunk = (matchChunk p (default (items chunk) found), cc)
  /\ (found = None -> Match p cc chunk = (matchChunk p (items chunk), cc)).
Proof.
  intros Hc found.
  assert (Match p cc chunk = (matchChunk p (default (items chunk) found), cc))
    as Hscan.
  { unfold Match. rewrite Hc. by rewrite searchSpace_firstCached. }
  split; [exact Hscan|]. intros Hfound. by rewrite Hscan, Hfound.
Qed.

(** C10: the basic (non-extended) Pattern that [BuildPattern] constructs
    is cacheable, its text is the query, lower-cased when it resolved
    case-insensitive, and its cache key is that text; so [Match] returns
    the entry cached under this key when there is one, and otherwise scans
    the first cached ancestor of this key (or the chunk) and stores the
    result under this key. *)
Theorem BuildPattern_basic_cache_key (st : PatternStore) fuzzy caseMode forward
    nth delimiter runes :
  _patternCache st !! normalize false runes = None ->
  let query := string_of_runes runes in
  let caseSensitive :=
    Case_eqb caseMode CaseRespect
    || (Case_eqb caseMode CaseSmart && negb (String.eqb (ToLower query) query)) in
  let text := if caseSensitive then query else ToLower query in
  exists p,
    let r := BuildPattern st fuzzy false caseMode forward nth delimiter runes in
    heap r.2 !! r.1 = Some p
    /\ p_extended p = false
    /\ p_cacheable p = true
    /\ p_caseSensitive p = caseSensitive
    /\ p_text p = runes_of_string text
    /\ CacheKey p = string_of_runes (p_text p)
    /\ (string_of_runes (runes_of_string text) = text -> CacheKey p = text)
    /\ (forall cc chunk cached,
          Find cc chunk (CacheKey p) = Some cached ->
          Match p cc chunk = (cached, cc))
    /\ (forall cc chunk,
          Find cc chunk (CacheKey p) = None ->
          let matches :=
            matchChunk p
              (default (items chunk)
                 (firstCached cc chunk (ancestorKeys (CacheKey p)))) in
          Match p cc chunk = (matches, Add cc chunk (CacheKey p) matches)).
Proof.
  intros Hmiss query caseSensitive text.
  destruct (BuildPattern_miss st fuzzy false caseMode forward nth delimiter runes
              Hmiss) as (_ & Hp & _).
  eexists. split; [exact Hp|].
  set (p := (newPattern _ _ _ _ _ _ _).1).
  assert (p_cacheable p = true) as Hc by done.
  split; [done|]. split; [done|]. split; [done|].
  assert (p_text p = runes_of_string text) as Htext
    by (unfold p, text, caseSensitive, query; simpl; by destruct (_ || _)).
  split; [exact Htext|]. split; [done|].
  split.
  { intros Hround. change (CacheKey p) with (string_of_runes (p_text p)).
    by rewrite Htext. }
  split.
  - intros cc chunk cached Hfind. unfold Match. by rewrite Hc, Hfind.
  - intros cc chunk Hfind. unfold Match.
    by rewrite Hc, Hfind, searchSpace_firstCached.
Qed.
End AncestorSearch.

(** ** The pattern memo table *)

Section Memo.
Context `{GoText} `{Env}.

(** A second call returns the Pattern of the first, and allocates
    nothing, whenever the first call stored its Pattern under the key it
    had looked up. *)
Lemma BuildPattern_again (st : PatternStore) fuzzy extended caseMode forward
    nth delimiter runes runes' :
  normalize extended runes' = normalize extended runes ->
  (newPattern fuzzy extended caseMode forward nth delimiter
     (normalize extended runes)).2 = normalize extended runes ->
  let r := BuildPattern st fuzzy extended caseMode forward nth delimiter runes in
  BuildPattern r.2 fuzzy extended caseMode forward nth delimiter runes'
  = (r.1, r.2).
Proof.
  intros Hsame Hkey. unfold BuildPattern. rewrite Hsame.
  destruct (_patternCache st !! normalize extended runes) as [cached|] eqn:Hst.
  - simpl. by rewrite Hst.
  - destruct (newPattern _ _ _ _ _ _ _) as [pattern asString] eqn:Hnew.
    simpl in Hkey. subst asString. simpl. by rewrite lookup_insert_eq.
Qed.

(** In extended mode the key is not changed between the lookup and the
    store, so repeated construction returns the same Pattern. *)
Lemma BuildPattern_extended_again (st : PatternStore) fuzzy caseMode forward
    nth delimiter runes runes' :
  normalize true runes' = normalize true runes ->
  let r := BuildPattern st fuzzy true caseMode forward nth delimiter runes in
  BuildPattern r.2 fuzzy true caseMode forward nth delimiter runes' = (r.1, r.2).
Proof. intros Hsame. by apply BuildPattern_again. Qed.
(** C9 fails on the code: in basic mode a query that resolves
    case-insensitive is looked up under the text as given and stored under
    the lower-cased text.  When the two texts differ, the first call misses
    and stores its Pattern under the lower-cased text only, and the second
    call with the same arguments misses again, allocates a second Pattern
    and returns that one. *)
Theorem BuildPattern_basic_rebuilds (st : PatternStore) fuzzy forward nth
    delimiter runes :
  ToLower (normalize false runes) <> normalize false runes ->
  _patternCache st !! normalize false runes = None ->
  let r1 := BuildPattern st fuzzy false CaseIgnore forward nth delimiter runes in
  let r2 := BuildPattern r1.2 fuzzy false CaseIgnore forward nth delimiter runes in
  r1.1 = length (heap st)
  /\ _patternCache r1.2 !! normalize false runes = None
  /\ _patternCache r1.2 !! ToLower (normalize false runes) = Some r1.1
  /\ r2.1 = S (length (heap st))
  /\ r2.1 <> r1.1
  /\ length (heap r2.2) = S (S (length (heap st)))
  /\ heap r2.2 !! r2.1 = heap r2.2 !! r1.1.
Proof.
  intros Hfold Hmiss. unfold BuildPattern.
  set (query := normalize false runes) in *. clearbody query.
  rewrite Hmiss. simpl.
  rewrite lookup_insert_ne by done. rewrite Hmiss. simpl.
  rewrite lookup_insert_eq, !length_app. simpl.
  repeat split; try lia.
  rewrite <- app_assoc. simpl.
  rewrite !(lookup_app_r (heap st)) by lia.
  replace (length (heap st) + 1 - length (heap st)) with 1 by lia.
  by rewrite Nat.sub_diag.
Qed.
End Memo.

(** ** Reuse of a cached ancestor *)

Section Reuse.
Context `{GoText} `{Env}.
Implicit Types (p : Pattern) (cc : ChunkCache) (chunk : ChunkPtr) (t : term).

(** A cacheable Pattern whose exact key misses scans the search space and
    stores what it finds. *)
Lemma Match_miss p cc chunk :
  p_cacheable p = true ->
  Find cc chunk (CacheKey p) = None ->
  Match p cc chunk
  = (matchChunk p (searchSpace cc chunk (CacheKey p)),
     Add cc chunk (CacheKey p) (matchChunk p (searchSpace cc chunk (CacheKey p)))).
Proof. intros Hc Hfind. unfold Match. by rewrite Hc, Hfind. Qed.

Lemma prepareInput_fresh p (item : Item) :
  p_nth p = [] -> i_transformed item = None ->
  prepareInput p item = ([wholeText item], prepared item).
Proof. intros Hnth Hnone. unfold prepareInput. by rewrite Hnone, Hnth. Qed.

(** A Pattern of one non-inverted term against a chunk of one fresh line. *)
Lemma matchChunk_one_term p t (item : Item) :
  p_extended p = true -> p_termSets p = [[t]] -> t_inv t = false ->
  p_nth p = [] -> i_transformed item = None ->
  matchChunk p [item]
  = if hits p [wholeText item] t then
      [dupItem (prepared item) [translatedOffset p [wholeText item] t]]
    else [].
Proof.
  intros Hext Hsets Hinv Hnth Hnone. unfold matchChunk, extendedMatch.
  rewrite Hext, Hsets. cbn [negb fold_left].
  rewrite prepareInput_fresh by done. cbn [setLoop].
  rewrite termLoop_cons, Hinv.
  destruct (hits p [wholeText item] t); [done|].
  by cbn [termLoop].
Qed.

(** Whether a term hits a line that is its own single field. *)
Lemma hits_wholeText p t (item : Item) :
  hits p [wholeText item] t
  = let sidx :=
      (p_procFun p (t_typ t) (t_caseSensitive t) (p_forward p) (i_text item)
         (t_text t)).1 in
    ((0 <=? sidx) && (0 <=? addInt sidx 0))%Z.
Proof.
  unfold hits. cbn [iter wholeText k_text prefixLength trimLength].
  destruct (p_procFun p (t_typ t) (t_caseSensitive t) (p_forward p) (i_text item)
              (t_text t)) as [sidx eidx]. cbn [fst].
  by destruct (0 <=? sidx)%Z.
Qed.
End Reuse.

Section AnchoredAncestor.
Context `{Env}.
#[local] Existing Instance AsciiText.text.

(** C2 fails on the code: the key of a Pattern keeps the modifiers of its
    terms, and dropping bytes of a key can leave the key of an anchored
    term.  Take any matchers for which [ab] is not a prefix of the line
    [x^ab] and the fuzzy term [x^ab] hits that line.  The query [^ab]
    caches the empty list under the key [^ab]; the query [x^ab], a
    cacheable fuzzy term, then misses its exact key, finds the ancestor key
    [^ab] (its key without the first byte), scans that empty list and
    returns nothing, although a scan of the chunk returns the line. *)
Theorem Match_anchored_ancestor_diverges (orig : OrigText) (colors : Colors)
    (delimiter : Delimiter) :
  ((PrefixMatch false true (AsciiText.decode "x^ab") (AsciiText.decode "ab")).1
   < 0)%Z ->
  (0 <= (FuzzyMatch false true (AsciiText.decode "x^ab")
           (AsciiText.decode "x^ab")).1 < 2 ^ 63)%Z ->
  let text := AsciiText.decode "x^ab" in
  let chunk := mkChunkPtr 0 [mkItem text orig None 0 [] colors (0, 0, 0)%Z] in
  let p1 := (newPattern true true CaseSmart true [] delimiter "^ab").1 in
  let p2 := (newPattern true true CaseSmart true [] delimiter "x^ab").1 in
  let cc := (Match p1 NewChunkCache chunk).2 in
  p_cacheable p1 = true /\ p_cacheable p2 = true
  /\ CacheKey p1 = "^ab" /\ CacheKey p2 = "x^ab"
  /\ (Match p1 NewChunkCache chunk).1 = []
  /\ Find cc chunk (CacheKey p2) = None
  /\ firstCached cc chunk (ancestorKeys (CacheKey p2)) = Some []
  /\ (Match p2 cc chunk).1 = []
  /\ length (matchChunk p2 (items chunk)) = 1.
Proof.
  intros Hprefix Hfuzzy text chunk p1 p2 cc.
  change (AsciiText.decode "x^ab") with text in Hprefix, Hfuzzy.
  set (item := mkItem text orig None 0 [] colors (0, 0, 0)%Z) in *.
  assert (p_cacheable p1 = true) as Hc1 by reflexivity.
  assert (p_cacheable p2 = true) as Hc2 by reflexivity.
  assert (CacheKey p1 = "^ab") as Hk1 by reflexivity.
  assert (CacheKey p2 = "x^ab") as Hk2 by reflexivity.
  assert (matchChunk p1 (items chunk) = []) as Hscan1.
  { change (items chunk) with [item].
    rewrite (matchChunk_one_term p1
               (mkTerm termPrefix false (AsciiText.decode "ab") false
                  (AsciiText.decode "^ab")) item) by reflexivity.
    rewrite hits_wholeText. cbn [p_procFun p1 newPattern fst t_typ procFunTable
      t_caseSensitive t_text p_forward i_text item].
    apply Z.leb_gt in Hprefix. by rewrite Hprefix. }
  assert (Match p1 NewChunkCache chunk = ([], Add NewChunkCache chunk "^ab" []))
    as H1.
  { rewrite Match_miss by done. rewrite Hk1.
    change (searchSpace NewChunkCache chunk "^ab") with (items chunk).
    by rewrite Hscan1. }
  assert (cc = Add NewChunkCache chunk "^ab" []) as Hcc by (unfold cc; by rewrite H1).
  assert (searchSpace cc chunk "x^ab" = []) as Hspace.
  { rewrite Hcc. vm_compute. reflexivity. }
  split; [done|]. split; [done|]. split; [done|]. split; [done|].
  split; [by rewrite H1|].
  split; [rewrite Hcc, Hk2; vm_compute; reflexivity|].
  split; [rewrite Hcc, Hk2; vm_compute; reflexivity|].
  split.
  - rewrite Match_miss; [|done|rewrite Hcc, Hk2; vm_compute; reflexivity].
    rewrite Hk2, Hspace. reflexivity.
  - change (items chunk) with [item].
    rewrite (matchChunk_one_term p2
               (mkTerm termFuzzy false text false text) item) by reflexivity.
    rewrite hits_wholeText. cbn [p_procFun p2 newPattern fst t_typ procFunTable
      t_caseSensitive t_text p_forward i_text item].
    assert ((0 <=? (FuzzyMatch false true text text).1)%Z = true) as ->
      by (apply Z.leb_le; lia).
    assert ((0 <=? addInt (FuzzyMatch false true text text).1 0)%Z = true) as ->.
    { apply Z.leb_le. unfold addInt, wrap. rewrite Z.add_0_r, Z.mod_small; lia. }
    reflexivity.
Qed.
End AnchoredAncestor.

(** ** More on the parser *)

Section ParserMore.
Context `{GoText}.
Implicit Types (fuzzy : bool) (caseMode : Case) (st : parseState).

(** The loop, one token at a time and over two lists of tokens. *)
Lemma parseLoop_cons fuzzy caseMode token tokens st :
  parseLoop fuzzy caseMode (token :: tokens) st
  = parseLoop fuzzy caseMode tokens (parseStep fuzzy caseMode st token).
Proof. reflexivity. Qed.

Lemma parseLoop_app fuzzy caseMode tokens1 tokens2 st :
  parseLoop fuzzy caseMode (tokens1 ++ tokens2) st
  = parseLoop fuzzy caseMode tokens2 (parseLoop fuzzy caseMode tokens1 st).
Proof. unfold parseLoop. apply fold_left_app. Qed.

(** An empty token changes nothing, when lower-casing keeps it empty. *)
Lemma parseStep_empty fuzzy caseMode st :
  ToLower "" = "" -> parseStep fuzzy caseMode st "" = st.
Proof.
  intros Hlow. unfold parseStep, foldToken. rewrite Hlow.
  by destruct (resolveCase caseMode "" "").
Qed.

(** The token [|] only clears the flag, when lower-casing keeps it. *)
Lemma parseStep_bar fuzzy caseMode st :
  ToLower "|" = "|" ->
  parseStep fuzzy caseMode st "|" = mkParseState (sets st) (set st) false.
Proof.
  intros Hlow. unfold parseStep, foldToken. rewrite Hlow.
  by destruct (resolveCase caseMode "|" "|").
Qed.

Lemma parseLoop_nonEmpty fuzzy caseMode tokens st :
  ToLower "" = "" ->
  parseLoop fuzzy caseMode tokens st
  = parseLoop fuzzy caseMode (List.filter nonEmpty tokens) st.
Proof.
  intros Hlow. revert st. induction tokens as [|token tokens IH]; intros st; [done|].
  rewrite parseLoop_cons. cbn [List.filter]. unfold nonEmpty at 1.
  destruct (String.eqb_spec token "") as [->|Hne]; cbn [negb].
  - rewrite parseStep_empty by done. apply IH.
  - rewrite parseLoop_cons. apply IH.
Qed.

(** The pieces of [s] when the split starts inside a separator are those
    of [s], up to an empty first piece. *)
Lemma splitFrom_inRun s :
  List.filter nonEmpty (regexp.splitFrom "" true s)
  = List.filter nonEmpty (regexp.splitFrom "" false s).
Proof.
  destruct s as [|c s]; [done|]. simpl. by destruct (regexp.isSpace c).
Qed.

Lemma rev_app_nonempty c cur acc : String.rev_app (String c cur) acc <> "".
Proof.
  revert c acc. induction cur as [|d cur IH]; intros c acc; simpl; [done|].
  apply IH.
Qed.

Lemma splitFrom_append_bar cur inRun s :
  (inRun = true -> cur = "") ->
  List.filter nonEmpty (regexp.splitFrom cur inRun (s +:+ " |"))
  = List.filter nonEmpty (regexp.splitFrom cur inRun s) ++ ["|"].
Proof.
  revert cur inRun. induction s as [|c s IH]; intros cur inRun Hrun.
  - destruct inRun.
    + rewrite Hrun by done. reflexivity.
    + change (regexp.splitFrom cur false ("" +:+ " |"))
        with [String.rev cur; "|"].
      change (regexp.splitFrom cur false "") with [String.rev cur].
      cbn [List.filter]. by destruct (nonEmpty (String.rev cur)).
  - rewrite app_cons. simpl. destruct (regexp.isSpace c).
    + destruct inRun; [by apply IH|].
      cbn [List.filter]. rewrite IH by done.
      by destruct (nonEmpty (String.rev cur)).
    + apply IH. done.
Qed.

(** X1: a [|] that opens or closes the query has no effect: the queries
    ["| q"] and ["q |"] parse to the groups of [q]. *)
Theorem parseTerms_stray_bar fuzzy caseMode q :
  ToLower "" = "" -> ToLower "|" = "|" ->
  parseTerms fuzzy caseMode ("| " +:+ q) = parseTerms fuzzy caseMode q
  /\ parseTerms fuzzy caseMode (q +:+ " |") = parseTerms fuzzy caseMode q.
Proof.
  intros Hempty Hbar. unfold parseTerms, regexp.Split. split.
  - rewrite (parseLoop_nonEmpty _ _ (regexp.splitFrom "" false ("| " +:+ q)))
      by done.
    rewrite (parseLoop_nonEmpty _ _ (regexp.splitFrom "" false q)) by done.
    change (regexp.splitFrom "" false ("| " +:+ q))
      with ("|" :: regexp.splitFrom "" true q).
    cbn [List.filter]. change (nonEmpty "|") with true. cbv iota.
    rewrite splitFrom_inRun, parseLoop_cons, parseStep_bar by done.
    reflexivity.
  - rewrite (parseLoop_nonEmpty _ _ (regexp.splitFrom "" false (q +:+ " |")))
      by done.
    rewrite (parseLoop_nonEmpty _ _ (regexp.splitFrom "" false q)) by done.
    rewrite splitFrom_append_bar by done.
    rewrite parseLoop_app, parseLoop_cons, parseStep_bar by done.
    reflexivity.
Qed.

(** The pieces of a string of separators are empty. *)
Lemma splitFrom_onlySpace inRun s :
  onlySpace s = true ->
  List.filter nonEmpty (regexp.splitFrom "" inRun s) = [].
Proof.
  revert inRun. induction s as [|c s IH]; intros inRun Hs; [done|].
  simpl in *. apply andb_true_iff in Hs as [-> Hs].
  destruct inRun; simpl; by apply IH.
Qed.

(** No term when no token yields one, and conversely. *)
Lemma parseTerms_nil_iff fuzzy caseMode str :
  parseTerms fuzzy caseMode str = []
  <-> List.filter (yieldsTerm fuzzy caseMode) (regexp.Split str) = [].
Proof.
  pose proof (parseTerms_terms (H:=H) fuzzy caseMode str) as Hterms.
  pose proof (parseTerms_nonempty fuzzy caseMode str) as Hne.
  split.
  - intros Hnil. rewrite Hnil in Hterms. simpl in Hterms.
    symmetry in Hterms. by apply map_eq_nil in Hterms.
  - intros Hnone. rewrite Hnone in Hterms. simpl in Hterms.
    destruct (parseTerms fuzzy caseMode str) as [|ts rest]; [done|].
    apply Forall_cons in Hne as [Hts _]. simpl in Hterms.
    destruct ts; [done|]. discriminate.
Qed.

(** X2: the groups of a parsed query are never empty and, read in order,
    hold exactly the terms of the tokens that yield one: nothing is added,
    lost or reordered by the grouping. *)
Theorem parseTerms_structure fuzzy caseMode str :
  Forall (fun ts : termSet => ts <> []) (parseTerms fuzzy caseMode str)
  /\ concat (parseTerms fuzzy caseMode str)
     = map (tokenTerm fuzzy caseMode)
         (List.filter (yieldsTerm fuzzy caseMode) (regexp.Split str)).
Proof. split; [apply parseTerms_nonempty|apply (parseTerms_terms (H:=H))]. Qed.

(** X3: a query made of separators only parses to no group. *)
Theorem parseTerms_blank fuzzy caseMode str :
  ToLower "" = "" -> onlySpace str = true ->
  parseTerms fuzzy caseMode str = [].
Proof.
  intros Hlow Hblank. unfold parseTerms, regexp.Split.
  rewrite parseLoop_nonEmpty by done.
  by rewrite splitFrom_onlySpace.
Qed.

Lemma tokenTerm_caseSensitive fuzzy caseMode token :
  t_caseSensitive (tokenTerm fuzzy caseMode token)
  = resolveCase caseMode token (ToLower token).
Proof.
  unfold tokenTerm, foldToken.
  destruct (stripInv _) as [inv body].
  by destruct (applyModifier _ _ body) as [typ rest].
Qed.

(** X4: under [CaseRespect] every term of a parsed query is case-sensitive
    and keeps its token as typed; under [CaseIgnore] no term is
    case-sensitive and every term is built from the lower-cased token. *)
Theorem parseTerms_case_modes fuzzy str :
  (Forall (fun t => t_caseSensitive t = true)
     (concat (parseTerms fuzzy CaseRespect str))
   /\ map t_origText (concat (parseTerms fuzzy CaseRespect str))
      = map runes_of_string
          (List.filter (yieldsTerm fuzzy CaseRespect) (regexp.Split str)))
  /\ (Forall (fun t => t_caseSensitive t = false)
        (concat (parseTerms fuzzy CaseIgnore str))
      /\ map t_origText (concat (parseTerms fuzzy CaseIgnore str))
         = map (fun token => runes_of_string (ToLower token))
             (List.filter (yieldsTerm fuzzy CaseIgnore) (regexp.Split str))).
Proof.
  rewrite !(parseTerms_terms (H:=H)), !map_map. repeat split.
  - apply Forall_map, Forall_forall. intros token _.
    by rewrite tokenTerm_caseSensitive.
  - apply map_ext. intros token. by rewrite (tokenTerm_origText (H:=H)).
  - apply Forall_map, Forall_forall. intros token _.
    by rewrite tokenTerm_caseSensitive.
  - apply map_ext. intros token. by rewrite (tokenTerm_origText (H:=H)).
Qed.
End ParserMore.

(** ** Fields, items and chunk scans *)

Section Scans.
Context `{Env}.
Implicit Types (p q : Pattern) (item : Item) (chunk : Chunk) (pfun : matcher).

(** X5: [iter] answers for the first field on which the matcher hits, with
    the span moved by the prefix length of that field and with its trim
    length; it answers (-1,-1,-1) exactly when the matcher hits on no field
    (in particular when there is no field). *)
Theorem iter_first_field pfun tokens cs fwd pattern :
  (Forall (missesField pfun cs fwd pattern) tokens
   /\ iter pfun tokens cs fwd pattern = (-1, -1, -1)%Z)
  \/ exists before part after sidx eidx,
       tokens = before ++ part :: after
       /\ Forall (missesField pfun cs fwd pattern) before
       /\ pfun cs fwd (k_text part) pattern = (sidx, eidx) /\ (0 <= sidx)%Z
       /\ iter pfun tokens cs fwd pattern
          = (addInt sidx (prefixLength part), addInt eidx (prefixLength part),
             trimLength part).
Proof.
  induction tokens as [|k tokens IH]; [left; by split|].
  destruct (pfun cs fwd (k_text k) pattern) as [s e] eqn:Hk.
  destruct (Z.leb_spec 0 s) as [Hs|Hs].
  - right. exists [], k, tokens, s, e. repeat split; try done.
    simpl. rewrite Hk. by apply Z.leb_le in Hs as ->.
  - assert (missesField pfun cs fwd pattern k) as Hmiss
      by (unfold missesField; by rewrite Hk).
    assert (iter pfun (k :: tokens) cs fwd pattern
            = iter pfun tokens cs fwd pattern) as Hskip.
    { simpl. rewrite Hk. by apply Z.leb_gt in Hs as ->. }
    rewrite Hskip.
    destruct IH as [[Hall Hnone]|(before & part & after & s' & e' & -> & Hb & Hp
                                  & Hs' & Hiter)].
    + left. split; [by constructor|done].
    + right. exists (k :: before), part, after, s', e'.
      repeat split; try done. by constructor.
Qed.

(** X6: when no prefix length is negative and no translated start leaves
    the range of [int], the start [iter] returns is non-negative exactly
    when the matcher hits on some field: the test [sidx >= 0] of the
    callers loses no hit and invents none. *)
Theorem iter_hit_iff pfun tokens cs fwd pattern :
  Forall (fun k => (0 <= prefixLength k
                    /\ (pfun cs fwd (k_text k) pattern).1 + prefixLength k
                       < 2 ^ 63)%Z) tokens ->
  (0 <=? (iter pfun tokens cs fwd pattern).1.1)%Z
  = existsb (fun k => (0 <=? (pfun cs fwd (k_text k) pattern).1)%Z) tokens.
Proof.
  induction 1 as [|k tokens [Hpre Hsum] _ IH]; [done|].
  simpl. destruct (pfun cs fwd (k_text k) pattern) as [s e]. simpl in *.
  destruct (Z.leb_spec 0 s) as [Hs|Hs]; [|exact IH].
  simpl. apply Z.leb_le. unfold addInt, wrap.
  rewrite Z.mod_small; lia.
Qed.

(** X7: [prepareInput] computes the fields of an item once.  After a first
    call, a call for any Pattern, whatever its ranges and delimiter, returns
    the fields of the first call and leaves the item as it is; the first
    call changes no other field of the item. *)
Theorem prepareInput_memo p q item :
  let r := prepareInput p item in
  prepareInput q r.2 = (r.1, r.2)
  /\ i_transformed r.2 = Some r.1
  /\ i_text r.2 = i_text item /\ i_origText r.2 = i_origText item
  /\ i_index r.2 = i_index item /\ i_offsets r.2 = i_offsets item
  /\ i_colors r.2 = i_colors item /\ i_rank r.2 = i_rank item.
Proof.
  unfold prepareInput. destruct (i_transformed item) as [tr|] eqn:Htr; simpl.
  - by rewrite Htr.
  - done.
Qed.

Lemma fold_left_pointwise {A B} (f g : B -> A -> B) (l : list A) (acc : B) :
  (forall b a, f b a = g b a) -> fold_left f l acc = fold_left g l acc.
Proof.
  intros Hfg. revert acc. induction l as [|a l IH]; intros acc; simpl; [done|].
  by rewrite Hfg, IH.
Qed.

(** The accumulator of the scan only grows at its end. *)
Lemma fold_left_matches {A} (f : A -> option Item) (l : list A) (acc : list Item) :
  fold_left (fun matches a =>
               match f a with Some r => matches ++ [r] | None => matches end) l acc
  = acc ++ omap f l.
Proof.
  revert acc. induction l as [|a l IH]; intros acc; simpl.
  - by rewrite app_nil_r.
  - rewrite IH. destruct (f a); simpl; [by rewrite <- app_assoc|done].
Qed.

(** The scan of a chunk is the scan of its items one by one. *)
Lemma matchChunk_omap p chunk :
  matchChunk p chunk
  = omap (fun item =>
            if (MatchItem p item).1 then Some (matchedCopy p item) else None)
      chunk.
Proof.
  unfold matchChunk, MatchItem, matchedCopy, matchOffsets.
  destruct (p_extended p) eqn:Hext; simpl.
  - rewrite <- (app_nil_l (omap _ chunk)), <- fold_left_matches.
    apply fold_left_pointwise. intros matches item.
    unfold extendedMatch. destruct (prepareInput p item) as [input item']. simpl.
    by destruct (_ =? _).
  - rewrite <- (app_nil_l (omap _ chunk)), <- fold_left_matches.
    apply fold_left_pointwise. intros matches item.
    unfold basicMatch. destruct (prepareInput p item) as [input item']. simpl.
    destruct (p_fuzzy p).
    + destruct (iter _ _ _ _ _) as [[sidx eidx] tlen]. simpl.
      by destruct (0 <=? sidx)%Z.
    + destruct (iter _ _ _ _ _) as [[sidx eidx] tlen]. simpl.
      by destruct (0 <=? sidx)%Z.
Qed.

Lemma omap_cons_eq {A B} (f : A -> option B) (x : A) (l : list A) :
  omap f (x :: l)
  = match f x with Some y => y :: omap f l | None => omap f l end.
Proof. reflexivity. Qed.

Lemma matchChunk_cons p item chunk :
  matchChunk p (item :: chunk)
  = (if (MatchItem p item).1 then [matchedCopy p item] else [])
    ++ matchChunk p chunk.
Proof.
  rewrite !matchChunk_omap, omap_cons_eq. by destruct (MatchItem p item).1.
Qed.

Lemma matchChunk_nil p : matchChunk p [] = [].
Proof. by rewrite matchChunk_omap. Qed.

Lemma matchChunk_app p chunk chunk' :
  matchChunk p (chunk ++ chunk') = matchChunk p chunk ++ matchChunk p chunk'.
Proof. rewrite !matchChunk_omap. apply omap_app. Qed.

Lemma matchChunk_filter p chunk :
  matchChunk p chunk
  = map (matchedCopy p) (List.filter (fun item => (MatchItem p item).1) chunk).
Proof.
  induction chunk as [|item chunk IH]; [apply matchChunk_nil|].
  rewrite matchChunk_cons, IH. cbn [List.filter].
  by destruct (MatchItem p item).1.
Qed.

(** X8: a chunk scan keeps exactly the items for which [MatchItem] holds, in
    the order of the chunk, each as the copy [dupItem] makes; so the scan of
    two slices one after the other is the scan of their concatenation. *)
Theorem matchChunk_keeps_matching p chunk :
  matchChunk p chunk
  = map (matchedCopy p) (List.filter (fun item => (MatchItem p item).1) chunk)
  /\ forall chunk', matchChunk p (chunk ++ chunk')
                    = matchChunk p chunk ++ matchChunk p chunk'.
Proof. split; [apply matchChunk_filter|intros; apply matchChunk_app]. Qed.

(** The answer for an item depends on the item through its fields only. *)
Lemma MatchItem_same_input p (a b : Item) :
  (prepareInput p a).1 = (prepareInput p b).1 ->
  (MatchItem p a).1 = (MatchItem p b).1 /\ matchOffsets p a = matchOffsets p b.
Proof.
  intros Hin. unfold MatchItem, matchOffsets, basicMatch, extendedMatch.
  destruct (prepareInput p a) as [ia a'], (prepareInput p b) as [ib b'].
  simpl in Hin. subst ib.
  destruct (p_extended p); simpl; [done|].
  destruct (p_fuzzy p); simpl;
    by destruct (iter _ _ _ _ _) as [[sidx eidx] tlen].
Qed.

(** A second [prepareInput] returns the fields of the first. *)
Lemma prepareInput_again p q item :
  prepareInput q (prepareInput p item).2
  = ((prepareInput p item).1, (prepareInput p item).2).
Proof.
  unfold prepareInput. destruct (i_transformed item) as [tr|] eqn:Htr; simpl;
    [by rewrite Htr|done].
Qed.

(** What [prepareInput] returns for a copy made by [dupItem]. *)
Lemma prepareInput_dupItem p item offs :
  (prepareInput p (dupItem item offs)).1 = (prepareInput p item).1
  /\ forall offs',
        dupItem (prepareInput p (dupItem item offs)).2 offs'
        = dupItem (prepareInput p item).2 offs'.
Proof.
  unfold prepareInput, dupItem. simpl.
  destruct (i_transformed item) as [tr|] eqn:Htr; simpl; [by rewrite Htr|done].
Qed.

Lemma MatchItem_dupItem p item offs :
  (MatchItem p (dupItem item offs)).1 = (MatchItem p item).1.
Proof.
  exact (proj1 (MatchItem_same_input p _ _ (proj1 (prepareInput_dupItem p item offs)))).
Qed.

Lemma matchedCopy_dupItem p item offs :
  matchedCopy p (dupItem item offs) = matchedCopy p item.
Proof.
  unfold matchedCopy.
  destruct (prepareInput_dupItem p item offs) as [Hin Hdup].
  rewrite Hdup. f_equal. exact (proj2 (MatchItem_same_input p _ _ Hin)).
Qed.

(** X9: an item and the copies [dupItem] makes of it are matched alike,
    whatever offsets the copy carries; so the scan of a list of copies
    returns what the scan of the originals returns. *)
Theorem matchChunk_copies p chunk (offs : Item -> list Offset) :
  (forall item o, (MatchItem p (dupItem item o)).1 = (MatchItem p item).1)
  /\ matchChunk p (map (fun item => dupItem item (offs item)) chunk)
     = matchChunk p chunk.
Proof.
  split; [intros; apply MatchItem_dupItem|].
  induction chunk as [|item chunk IH]; [done|].
  cbn [map]. by rewrite !matchChunk_cons, IH, MatchItem_dupItem, matchedCopy_dupItem.
Qed.

(** The fields depend on the Pattern through its ranges and delimiter. *)
Lemma prepareInput_same_fields p q item :
  p_nth q = p_nth p -> p_delimiter q = p_delimiter p ->
  prepareInput q item = prepareInput p item.
Proof. intros Hnth Hdel. unfold prepareInput. by rewrite Hnth, Hdel. Qed.

(** The copy kept for [q], scanned with [p], when both select the same
    fields. *)
Lemma matchChunk_matchedCopy p q item :
  p_nth q = p_nth p -> p_delimiter q = p_delimiter p ->
  matchChunk p [matchedCopy q item] = matchChunk p [item].
Proof.
  intros Hnth Hdel.
  assert ((prepareInput p (prepareInput p item).2).1 = (prepareInput p item).1)
    as Hin by (by rewrite prepareInput_again).
  rewrite !matchChunk_cons, !matchChunk_nil.
  change (matchedCopy q item)
    with (dupItem (prepareInput q item).2 (matchOffsets q item)).
  rewrite MatchItem_dupItem, matchedCopy_dupItem.
  rewrite (prepareInput_same_fields p q) by done.
  destruct (MatchItem_same_input p _ _ Hin) as [-> Hoffs].
  destruct (MatchItem p item).1; [|done]. do 2 f_equal.
  unfold matchedCopy. rewrite prepareInput_again, Hoffs. done.
Qed.

(** X10: narrowing is sound for a superset.  When two Patterns select the
    same fields and every item of the chunk that [p] matches is matched by
    [q] too, scanning the result of [q] with [p] returns what scanning the
    chunk with [p] returns. *)
Theorem matchChunk_narrowing p q chunk :
  p_nth q = p_nth p -> p_delimiter q = p_delimiter p ->
  Forall (fun item => (MatchItem p item).1 = true -> (MatchItem q item).1 = true)
    chunk ->
  matchChunk p (matchChunk q chunk) = matchChunk p chunk.
Proof.
  intros Hnth Hdel Hsub.
  induction Hsub as [|item chunk Himp _ IH]; [by rewrite !matchChunk_nil|].
  rewrite (matchChunk_cons q), matchChunk_app, IH, (matchChunk_cons p item chunk).
  f_equal. destruct (MatchItem q item).1 eqn:Hq.
  - rewrite matchChunk_matchedCopy by done.
    by rewrite matchChunk_cons, matchChunk_nil, app_nil_r.
  - rewrite matchChunk_nil. destruct (MatchItem p item).1; [|done].
    by specialize (Himp eq_refl).
Qed.

(** X11: an extended Pattern without groups ([IsEmpty]) matches every item
    with no offset, so a scan returns a copy of every item of the chunk. *)
Theorem IsEmpty_matches_all p chunk :
  p_extended p = true -> IsEmpty p = true ->
  (forall item, (MatchItem p item).1 = true /\ (extendedMatch p item).1 = [])
  /\ matchChunk p chunk = map (matchedCopy p) chunk.
Proof.
  intros Hext Hempty. unfold IsEmpty in Hempty. rewrite Hext in Hempty.
  simpl in Hempty. apply Nat.eqb_eq, length_zero_iff_nil in Hempty.
  assert (forall item, (MatchItem p item).1 = true
                       /\ (extendedMatch p item).1 = []) as Hall.
  { intros item. unfold MatchItem, extendedMatch. rewrite Hext, Hempty. simpl.
    by destruct (prepareInput p item). }
  split; [exact Hall|].
  rewrite matchChunk_filter. f_equal.
  induction chunk as [|item chunk IH]; [done|].
  cbn [List.filter]. by rewrite (proj1 (Hall item)), IH.
Qed.
End Scans.

(** ** The result cache across calls *)

Section CacheCalls.
Context `{GoText} `{Env}.
Implicit Types (p : Pattern) (cc : ChunkCache) (chunk : ChunkPtr) (key : string).

(** What [Find] returns after an [Add], and on the empty cache. *)
Lemma Find_Add_eq cc chunk key (cached : list Item) :
  Find (Add cc chunk key cached) chunk key = Some cached.
Proof.
  unfold Find, Add.
  exact (lookup_insert_eq (cc : gmap (nat * string) (list Item)) _ _).
Qed.

Lemma Find_Add_ne cc chunk chunk' key key' (cached : list Item) :
  (addr chunk', key') <> (addr chunk, key) ->
  Find (Add cc chunk key cached) chunk' key' = Find cc chunk' key'.
Proof.
  intros Hne. unfold Find, Add.
  apply (lookup_insert_ne (cc : gmap (nat * string) (list Item))). congruence.
Qed.

Lemma Find_empty chunk key : Find NewChunkCache chunk key = None.
Proof.
  unfold Find, NewChunkCache.
  exact (lookup_empty (M:=gmap (nat * string)) (A:=list Item) _).
Qed.

(** X12: matching the same chunk again with the same Pattern returns the
    same list and leaves the cache as the first call left it. *)
Theorem Match_idempotent p cc chunk :
  Match p (Match p cc chunk).2 chunk = Match p cc chunk.
Proof.
  unfold Match. destruct (p_cacheable p) eqn:Hc; [|done].
  destruct (Find cc chunk (CacheKey p)) as [cached|] eqn:Hfind; cbn [snd].
  - by rewrite Hfind.
  - set (matches := matchChunk p _).
    by rewrite Find_Add_eq.
Qed.

(** X13: [Match] never replaces or removes an entry of the cache; the only
    entry it can add is the one of its own chunk and key. *)
Theorem Match_cache_grows p cc chunk :
  (forall chunk' key cached,
      Find cc chunk' key = Some cached ->
      Find (Match p cc chunk).2 chunk' key = Some cached)
  /\ (forall chunk' key,
        (addr chunk', key) <> (addr chunk, CacheKey p) ->
        Find (Match p cc chunk).2 chunk' key = Find cc chunk' key).
Proof.
  unfold Match. destruct (p_cacheable p) eqn:Hc; [|done].
  destruct (Find cc chunk (CacheKey p)) as [cached|] eqn:Hfind; [done|].
  cbn [snd]. split.
  - intros chunk' key cached Hsome. rewrite Find_Add_ne; [done|].
    intros Heq. unfold Find in *. rewrite Heq in Hsome. congruence.
  - intros chunk' key Hne. by rewrite Find_Add_ne.
Qed.

Lemma firstCached_none cc chunk (keys : list string) :
  Forall (fun key => Find cc chunk key = None) keys ->
  firstCached cc chunk keys = None.
Proof. induction 1 as [|key keys Hkey _ IH]; simpl; [done|by rewrite Hkey]. Qed.

(** X14: with an empty cache, as [clearChunkCache] leaves it, [Match] scans
    the whole chunk, and stores the result when the Pattern is cacheable. *)
Theorem Match_after_clear p cc chunk :
  Match p (clearChunkCache cc) chunk
  = (matchChunk p (items chunk),
     if p_cacheable p
     then Add NewChunkCache chunk (CacheKey p) (matchChunk p (items chunk))
     else NewChunkCache).
Proof.
  assert (searchSpace NewChunkCache chunk (CacheKey p) = items chunk) as Hspace.
  { rewrite searchSpace_firstCached, firstCached_none; [done|].
    apply Forall_forall. intros key _. apply Find_empty. }
  unfold Match, clearChunkCache. rewrite Hspace, Find_empty.
  by destruct (p_cacheable p).
Qed.

Lemma length_keepFirst n s : String.length (keepFirst n s) = n `min` String.length s.
Proof.
  revert n. induction s as [|c s IH]; intros [|n]; simpl; try done.
  by rewrite IH.
Qed.

Lemma length_removeFirst d s : String.length (removeFirst d s) = String.length s - d.
Proof. revert d. induction s as [|c s IH]; intros [|d]; simpl; try done. Qed.

Lemma ancestorKeys_lengths key :
  Forall (fun key' => 0 < String.length key' < String.length key)
    (ancestorKeys key).
Proof.
  unfold ancestorKeys. apply Forall_flat_map, Forall_forall.
  intros d Hd%elem_of_seq. repeat constructor.
  - unfold removeLast. rewrite length_keepFirst. lia.
  - unfold removeLast. rewrite length_keepFirst. lia.
  - rewrite length_removeFirst. lia.
  - rewrite length_removeFirst. lia.
Qed.

(** X15: the ancestor search consults only keys that are not empty and
    strictly shorter than the key, and only entries of the chunk at hand:
    when the cache holds no such entry the whole chunk is scanned.  Keys of
    at most one byte have no ancestor at all. *)
Theorem searchSpace_shorter_keys cc chunk key :
  (forall key', 0 < String.length key' < String.length key ->
                Find cc chunk key' = None) ->
  searchSpace cc chunk key = items chunk.
Proof.
  intros Hnone. rewrite searchSpace_firstCached, firstCached_none; [done|].
  eapply Forall_impl; [apply ancestorKeys_lengths|]. intros key'. apply Hnone.
Qed.

Lemma cacheKeyStep_filter (termSets : list termSet) (acc : list string) :
  fold_left cacheKeyStep termSets acc
  = acc ++ map (fun ts =>
                 string_of_runes
                   (t_origText
                      (default (mkTerm termFuzzy false [] false []) (head ts))))
             (List.filter keyGroup termSets).
Proof.
  revert acc. induction termSets as [|ts rest IH]; intros acc; simpl.
  - by rewrite app_nil_r.
  - rewrite IH. destruct ts as [|t [|t' ts]]; simpl; try done.
    destruct (t_inv t); simpl; [done|]. by rewrite <- app_assoc.
Qed.

(** X16: the cache key of an extended Pattern does not see OR groups and
    groups with an inverted term: a Pattern and the Pattern without such a
    group have the same key. *)
Theorem CacheKey_skips_group p p' (before after : list termSet) (group : termSet) :
  p_extended p = true -> p_extended p' = true ->
  p_termSets p = before ++ group :: after ->
  p_termSets p' = before ++ after ->
  keyGroup group = false ->
  CacheKey p = CacheKey p'.
Proof.
  intros Hext Hext' Hsets Hsets' Hgroup. unfold CacheKey.
  rewrite Hext, Hext', Hsets, Hsets'. simpl.
  rewrite !cacheKeyStep_filter, !List.filter_app. cbn [List.filter]. by rewrite Hgroup.
Qed.
End CacheCalls.

(** ** The memo table across calls *)

Section MemoCalls.
Context `{GoText} `{Env}.

(** A call finds the Pattern of an earlier call whenever that call stored
    it under the key it had looked up; the other arguments of the later
    call play no part. *)
Lemma BuildPattern_found (st : PatternStore) fuzzy fuzzy' extended caseMode
    caseMode' forward forward' nth nth' delimiter delimiter' runes runes' :
  normalize extended runes' = normalize extended runes ->
  (newPattern fuzzy extended caseMode forward nth delimiter
     (normalize extended runes)).2 = normalize extended runes ->
  let r := BuildPattern st fuzzy extended caseMode forward nth delimiter runes in
  BuildPattern r.2 fuzzy' extended caseMode' forward' nth' delimiter' runes'
  = (r.1, r.2).
Proof.
  intros Hsame Hkey. unfold BuildPattern. rewrite Hsame.
  destruct (_patternCache st !! normalize extended runes) as [cached|] eqn:Hst.
  - simpl. by rewrite Hst.
  - destruct (newPattern fuzzy _ _ _ _ _ _) as [pattern asString] eqn:Hnew.
    simpl in Hkey. subst asString. simpl. by rewrite lookup_insert_eq.
Qed.

(** The key is stored as looked up, except in basic mode under
    [CaseIgnore] for a text that lower-casing changes. *)
Lemma newPattern_key fuzzy extended caseMode forward nth delimiter asString :
  extended = true \/ caseMode <> CaseIgnore \/ ToLower asString = asString ->
  (newPattern fuzzy extended caseMode forward nth delimiter asString).2 = asString.
Proof.
  intros Hcase. unfold newPattern. destruct extended; [done|]. simpl.
  destruct caseMode; simpl.
  - destruct (String.eqb_spec (ToLower asString) asString) as [Heq|Hne]; done.
  - destruct Hcase as [?|[?|?]]; done.
  - done.
Qed.

(** X17: repeated construction returns the same Pattern and allocates
    nothing, for every query in extended mode, and in basic mode under
    [CaseSmart] and [CaseRespect] or when lower-casing leaves the query as
    it is; in extended mode blanks around the query make no difference. *)
Theorem BuildPattern_memo_hit (st : PatternStore) fuzzy extended caseMode forward
    nth delimiter runes runes' :
  normalize extended runes' = normalize extended runes ->
  extended = true \/ caseMode <> CaseIgnore
  \/ ToLower (normalize extended runes) = normalize extended runes ->
  let r := BuildPattern st fuzzy extended caseMode forward nth delimiter runes in
  BuildPattern r.2 fuzzy extended caseMode forward nth delimiter runes'
  = (r.1, r.2).
Proof.
  intros Hsame Hcase. apply BuildPattern_found; [done|].
  by apply newPattern_key.
Qed.

(** X18: a hit in the memo table ignores the modes of the call.  After a
    query was built in extended mode, a call with the same text returns the
    Pattern of the first call, with the fuzzy flag, case mode, direction,
    ranges and delimiter of the first call, whatever the second call asks
    for. *)
Theorem BuildPattern_hit_keeps_first_modes (st : PatternStore) fuzzy fuzzy'
    caseMode caseMode' forward forward' nth nth' delimiter delimiter' runes :
  _patternCache st !! normalize true runes = None ->
  let r := BuildPattern st fuzzy true caseMode forward nth delimiter runes in
  let r' := BuildPattern r.2 fuzzy' true caseMode' forward' nth' delimiter' runes in
  r' = r
  /\ heap r'.2 !! r'.1
     = Some (newPattern fuzzy true caseMode forward nth delimiter
               (normalize true runes)).1.
Proof.
  intros Hmiss r r'.
  assert (r' = r) as Heq.
  { unfold r', r.
    rewrite BuildPattern_found;
      [by destruct (BuildPattern _ _ _ _ _ _ _ _)|done|done]. }
  split; [exact Heq|]. rewrite Heq.
  by destruct (BuildPattern_miss st fuzzy true caseMode forward nth delimiter runes
                 Hmiss) as (_ & Hp & _).
Qed.

(** X19: [BuildPattern] keeps the store well formed: the pointer it returns
    refers to an allocated Pattern, the pointers of the memo table stay
    valid, and no Pattern allocated before is changed or moved. *)
Theorem BuildPattern_keeps_pointers (st : PatternStore) fuzzy extended caseMode
    forward nth delimiter runes :
  memoOk st ->
  let r := BuildPattern st fuzzy extended caseMode forward nth delimiter runes in
  memoOk r.2
  /\ is_Some (heap r.2 !! r.1)
  /\ (forall ptr pattern,
        heap st !! ptr = Some pattern -> heap r.2 !! ptr = Some pattern).
Proof.
  intros Hok. unfold BuildPattern.
  destruct (_patternCache st !! normalize extended runes) as [cached|] eqn:Hst.
  - simpl. split; [done|]. split; [|done].
    apply lookup_lt_is_Some. by apply (Hok _ _ Hst).
  - destruct (newPattern _ _ _ _ _ _ _) as [pattern asString]. simpl.
    split; [|split].
    + intros key ptr. simpl. rewrite length_app. simpl.
      destruct (decide (asString = key)) as [->|Hne].
      * rewrite lookup_insert_eq. intros [= <-]. lia.
      * rewrite lookup_insert_ne by done. intros Hk%Hok. lia.
    + apply lookup_lt_is_Some. rewrite length_app. simpl. lia.
    + intros ptr pat Hptr. by apply lookup_app_l_Some.
Qed.

(** X20: an extended Pattern is empty exactly when no token of its query
    yields a term. *)
Theorem IsEmpty_extended_iff fuzzy caseMode forward nth delimiter asString :
  IsEmpty (newPattern fuzzy true caseMode forward nth delimiter asString).1 = true
  <-> List.filter (yieldsTerm fuzzy caseMode) (regexp.Split asString) = [].
Proof.
  unfold IsEmpty, newPattern. simpl.
  rewrite Nat.eqb_eq, length_zero_iff_nil. apply parseTerms_nil_iff.
Qed.
End MemoCalls.

(** ** Package migemo *)

Section RuneCount.

Lemma size_bounds s : 1 <= utf8.size s <= 4.
Proof.
  unfold utf8.size. destruct s as [|c rest]; [lia|].
  destruct (_ <? 128); [lia|].
  destruct (utf8.first _) as [[size [lo hi]]|]; [|lia].
  destruct (_ <? size); [lia|].
  destruct rest as [|c1 rest1]; [lia|].
  destruct (utf8.outside lo hi c1); [lia|]. destruct (size =? 2); [lia|].
  destruct rest1 as [|c2 rest2]; [lia|].
  destruct (utf8.outside _ _ c2); [lia|]. destruct (size =? 3); [lia|].
  destruct rest2 as [|c3 rest3]; [lia|].
  destruct (utf8.outside _ _ c3); lia.
Qed.





End RuneCount.

Section Migemo.
Context {Regexp Dict : Type}.
Implicit Types (compile : Dict -> string -> Regexp + string)
  (find : Regexp -> string -> option (nat * nat))
  (st : migemo.State Regexp Dict).

(** X21: [regex] compiles a pattern at most once.  After a call returned,
    the cache holds the expression for the pattern, every later call for
    the pattern returns that expression and leaves the state as it is
    without compiling (whatever [migemo.Compile] would answer), and the
    entries of the other patterns are those of before. *)
Theorem regex_compiles_once compile st pattern re st' :
  migemo.regex Regexp Dict compile st pattern = Returned (re, st') ->
  migemo.cache _ _ st' !! pattern = Some re
  /\ (forall compile',
        migemo.regex Regexp Dict compile' st' pattern = Returned (re, st'))
  /\ (forall other, other <> pattern ->
        migemo.cache _ _ st' !! other = migemo.cache _ _ st !! other)
  /\ migemo.dict _ _ st' = migemo.dict _ _ st.
Proof.
  unfold migemo.regex.
  destruct (migemo.cache _ _ st !! pattern) as [v|] eqn:Hcache.
  - intros [= <- <-]. rewrite Hcache. by repeat split.
  - destruct (compile _ pattern) as [re'|err]; [|done].
    intros [= <- <-]. simpl. rewrite lookup_insert_eq.
    repeat split; try done. intros other Hne. by rewrite lookup_insert_ne.
Qed.


(** X23: the only way out of [regex] other than a return is [errorExit]:
    the run ends exactly when the pattern is not in the cache and
    [migemo.Compile] fails, with the error and a newline on stderr and the
    status 2; [FindStringIndex] ends in that case and in no other, whatever
    the text. *)
Theorem regex_exit compile find st s pattern stderr code :
  (migemo.regex Regexp Dict compile st pattern = Exited stderr code
   <-> migemo.cache _ _ st !! pattern = None
       /\ exists err, compile (migemo.dict _ _ st) pattern = inr err
                      /\ stderr = err +:+ String "010" "" /\ code = 2%Z)
  /\ (migemo.FindStringIndex Regexp Dict compile find st s pattern
      = Exited stderr code
      <-> migemo.regex Regexp Dict compile st pattern = Exited stderr code).
Proof.
  split.
  - unfold migemo.regex, migemo.errorExit.
    destruct (migemo.cache _ _ st !! pattern) as [v|] eqn:Hcache.
    + split; [discriminate|]. intros [Hnone _]. discriminate Hnone.
    + destruct (compile (migemo.dict _ _ st) pattern) as [re|err] eqn:Hcompile.
      * split; [discriminate|]. intros (_ & err & Herr & _). discriminate Herr.
      * split.
        -- intros Hexit. injection Hexit as <- <-. split; [reflexivity|].
           exists err. done.
        -- intros (_ & err' & Herr & -> & ->). by injection Herr as ->.
  - unfold migemo.FindStringIndex.
    destruct (migemo.regex Regexp Dict compile st pattern) as [[v st']|e c].
    + destruct (find v s) as [[i0 i1]|]; split; discriminate.
    + split; intros Hexit; injection Hexit as <- <-; reflexivity.
Qed.

End Migemo.

(** ** The grouping rule of [parseTerms] *)

Section GroupLaws.
Context `{GoText}.
Implicit Types (fuzzy : bool) (caseMode : Case) (st : parseState).

(** What an iteration does depends on the token alone. *)
Lemma parseStep_token fuzzy caseMode token :
  (forall st, parseStep fuzzy caseMode st token
              = mkParseState (sets st) (set st) false)
  \/ (forall st, parseStep fuzzy caseMode st token = st)
  \/ (exists t, forall st, parseStep fuzzy caseMode st token = pushTerm st t).
Proof.
  unfold parseStep. destruct (foldToken caseMode token) as [cs text].
  destruct (String.eqb text "|"); [by left|]. right.
  destruct (stripInv text) as [inv body].
  destruct (applyModifier _ _ body) as [typ rest].
  destruct (0 <? strings.len rest); [right|by left].
  eexists. intros st. unfold pushTerm. by destruct (switchSet st).
Qed.

Lemma parseStep_yields fuzzy caseMode token st :
  yieldsTerm fuzzy caseMode token = true ->
  parseStep fuzzy caseMode st token = pushTerm st (tokenTerm fuzzy caseMode token).
Proof.
  unfold yieldsTerm, parseStep, tokenTerm.
  destruct (foldToken caseMode token) as [cs text]. simpl.
  destruct (String.eqb text "|"); simpl; [done|].
  destruct (stripInv text) as [inv body]. simpl. fold (defaultKind fuzzy).
  destruct (applyModifier _ _ body) as [typ rest]. simpl. intros ->.
  unfold pushTerm. by destruct (switchSet st).
Qed.

Lemma parseStep_skips fuzzy caseMode token st :
  yieldsTerm fuzzy caseMode token = false ->
  (foldToken caseMode token).2 <> "|" ->
  parseStep fuzzy caseMode st token = st.
Proof.
  unfold yieldsTerm, parseStep.
  destruct (foldToken caseMode token) as [cs text]. simpl.
  destruct (String.eqb_spec text "|") as [->|_]; [done|]. simpl.
  destruct (stripInv text) as [inv body]. simpl. fold (defaultKind fuzzy).
  destruct (applyModifier _ _ body) as [typ rest]. simpl. by intros ->.
Qed.

Lemma yieldsTerm_empty fuzzy caseMode :
  ToLower "" = "" -> yieldsTerm fuzzy caseMode "" = false.
Proof.
  intros Hlow. unfold yieldsTerm, foldToken. rewrite Hlow.
  by destruct (resolveCase caseMode "" ""), fuzzy.
Qed.

(** Groups closed, or a group left open, before the loop started stay as
    they are. *)
Lemma pushTerm_closedBefore pre st t :
  pushTerm (closedBefore pre st) t = closedBefore pre (pushTerm st t).
Proof.
  unfold pushTerm, closedBefore. simpl.
  destruct (switchSet st); [|done]. by rewrite app_assoc.
Qed.

Lemma parseLoop_closedBefore fuzzy caseMode tokens pre st :
  parseLoop fuzzy caseMode tokens (closedBefore pre st)
  = closedBefore pre (parseLoop fuzzy caseMode tokens st).
Proof.
  revert st. induction tokens as [|token tokens IH]; intros st; [done|].
  rewrite !parseLoop_cons, <- IH. f_equal.
  destruct (parseStep_token fuzzy caseMode token) as [Hbar|[Hskip|[t Hpush]]].
  - by rewrite !Hbar.
  - by rewrite !Hskip.
  - by rewrite !Hpush, pushTerm_closedBefore.
Qed.

Lemma pushTerm_openBefore pre open st t :
  pushTerm (openBefore pre open st) t = openBefore pre open (pushTerm st t).
Proof.
  unfold pushTerm, openBefore.
  destruct (sets st) as [|group rest], (switchSet st); simpl.
  - done.
  - by rewrite app_assoc.
  - by rewrite <- app_assoc.
  - done.
Qed.

Lemma parseLoop_openBefore fuzzy caseMode tokens pre open st :
  parseLoop fuzzy caseMode tokens (openBefore pre open st)
  = openBefore pre open (parseLoop fuzzy caseMode tokens st).
Proof.
  revert st. induction tokens as [|token tokens IH]; intros st; [done|].
  rewrite !parseLoop_cons, <- IH. f_equal.
  destruct (parseStep_token fuzzy caseMode token) as [Hbar|[Hskip|[t Hpush]]].
  - rewrite !Hbar. unfold openBefore. simpl. by destruct (sets st).
  - by rewrite !Hskip.
  - by rewrite !Hpush, pushTerm_openBefore.
Qed.

(** Once a term was pushed the open group is never empty. *)
Lemma parseLoop_open_group fuzzy caseMode tokens st :
  (set st = [] -> sets st = []) ->
  set (parseLoop fuzzy caseMode tokens st) = [] ->
  sets (parseLoop fuzzy caseMode tokens st) = [].
Proof.
  revert st. induction tokens as [|token tokens IH]; intros st Hst; [done|].
  rewrite parseLoop_cons. apply IH.
  destruct (parseStep_cases fuzzy caseMode st token) as [-> | [-> | [t ->]]].
  - done.
  - done.
  - unfold pushTerm. simpl. intros Hnil. by apply app_nil in Hnil as [_ ?].
Qed.

Lemma joinOr_open (pre : list termSet) (open group : termSet) rest :
  joinOr (pre ++ [open]) (group :: rest) = pre ++ (open ++ group) :: rest.
Proof.
  unfold joinOr. destruct (pre ++ [open]) as [|g gs] eqn:Hpre.
  - by destruct pre.
  - rewrite <- Hpre. by rewrite List.removelast_last, List.last_last.
Qed.

Lemma closeLast_closedBefore pre st :
  closeLast (closedBefore pre st) = pre ++ closeLast st.
Proof.
  unfold closeLast, closedBefore. simpl.
  destruct (0 <? length (set st)); [by rewrite app_assoc|done].
Qed.

Lemma closeLast_openBefore (pre : list termSet) (open : termSet) st :
  (open = [] -> pre = []) ->
  (set st = [] -> sets st = []) ->
  closeLast (openBefore pre open st)
  = joinOr (closeLast (mkParseState pre open false)) (closeLast st).
Proof.
  intros Hopen Hset. destruct open as [|t1 open].
  - rewrite Hopen by done. unfold openBefore, closeLast.
    by destruct (sets st) as [|group rest], (set st) as [|t2 ts2].
  - change (closeLast (mkParseState pre (t1 :: open) false))
      with (pre ++ [t1 :: open]).
    destruct (set st) as [|t2 ts2] eqn:Hts.
    + specialize (Hset eq_refl). unfold openBefore, closeLast.
      rewrite Hset, Hts. cbn. by rewrite app_nil_r.
    + unfold openBefore, closeLast. rewrite Hts.
      destruct (sets st) as [|group rest]; cbn [sets set length Nat.ltb Nat.leb].
      * change ([] ++ [t2 :: ts2]) with [t2 :: ts2]. by rewrite joinOr_open.
      * change ((group :: rest) ++ [t2 :: ts2])
          with (group :: (rest ++ [t2 :: ts2])).
        rewrite joinOr_open. by rewrite <- app_assoc.
Qed.

(** The pieces of a token, and of two strings around a separator. *)
Lemma splitFrom_token cur s :
  noSpace s = true -> regexp.splitFrom cur false s = [String.rev_app cur s].
Proof.
  revert cur. induction s as [|c s IH]; intros cur Hs; [done|].
  simpl in *. apply andb_true_iff in Hs as [Hc Hs].
  destruct (regexp.isSpace c); [done|]. by rewrite IH.
Qed.

Lemma Split_token s : noSpace s = true -> regexp.Split s = [s].
Proof. intros Hs. unfold regexp.Split. by rewrite splitFrom_token. Qed.

Lemma splitFrom_after_run sep s :
  onlySpace sep = true ->
  List.filter nonEmpty (regexp.splitFrom "" true (sep +:+ s))
  = List.filter nonEmpty (regexp.Split s).
Proof.
  induction sep as [|c sep IH]; intros Hsep.
  - apply splitFrom_inRun.
  - simpl in Hsep. apply andb_true_iff in Hsep as [Hc Hsep].
    rewrite app_cons. simpl. rewrite Hc. by apply IH.
Qed.

Lemma splitFrom_app cur inRun s1 sep s2 :
  separator sep = true -> (inRun = true -> cur = "") ->
  List.filter nonEmpty (regexp.splitFrom cur inRun (s1 +:+ sep +:+ s2))
  = List.filter nonEmpty (regexp.splitFrom cur inRun s1)
    ++ List.filter nonEmpty (regexp.Split s2).
Proof.
  intros Hsep. revert cur inRun. induction s1 as [|c s1 IH]; intros cur inRun Hrun.
  - change ("" +:+ sep +:+ s2) with (sep +:+ s2).
    unfold separator in Hsep. apply andb_true_iff in Hsep as [Hne Hsep].
    destruct sep as [|c sep]; [done|]. simpl in Hsep.
    apply andb_true_iff in Hsep as [Hc Hsep]. rewrite app_cons. simpl. rewrite Hc.
    destruct inRun.
    + rewrite (Hrun eq_refl). by rewrite splitFrom_after_run.
    + cbn [List.filter]. rewrite splitFrom_after_run by done.
      by destruct (nonEmpty (String.rev cur)).
  - rewrite app_cons. simpl. destruct (regexp.isSpace c).
    + destruct inRun; [by apply IH|].
      cbn [List.filter]. rewrite IH by done.
      by destruct (nonEmpty (String.rev cur)).
    + by apply IH.
Qed.

(** The loop over a query made of two queries around a separator. *)
Lemma parseLoop_Split_app fuzzy caseMode s1 sep s2 st :
  ToLower "" = "" -> separator sep = true ->
  parseLoop fuzzy caseMode (regexp.Split (s1 +:+ sep +:+ s2)) st
  = parseLoop fuzzy caseMode (regexp.Split s2)
      (parseLoop fuzzy caseMode (regexp.Split s1) st).
Proof.
  intros Hlow Hsep.
  rewrite (parseLoop_nonEmpty _ _ (regexp.Split (s1 +:+ sep +:+ s2))) by done.
  unfold regexp.Split at 1. rewrite splitFrom_app by done.
  rewrite parseLoop_app.
  by rewrite <- !parseLoop_nonEmpty.
Qed.

Lemma parseTerms_closeLast fuzzy caseMode str :
  parseTerms fuzzy caseMode str
  = closeLast (parseLoop fuzzy caseMode (regexp.Split str)
                 (mkParseState [] [] false)).
Proof. reflexivity. Qed.

(** One token. *)
Lemma parseTerms_token fuzzy caseMode w :
  noSpace w = true ->
  parseTerms fuzzy caseMode w
  = if yieldsTerm fuzzy caseMode w then [[tokenTerm fuzzy caseMode w]] else [].
Proof.
  intros Hw. pose proof (parseTerms_terms (H:=H) fuzzy caseMode w) as Hterms.
  pose proof (parseTerms_nonempty fuzzy caseMode w) as Hne.
  rewrite Split_token in Hterms by done. cbn [List.filter] in Hterms.
  destruct (yieldsTerm fuzzy caseMode w); cbn [map] in Hterms.
  - destruct (parseTerms fuzzy caseMode w) as [|g [|g' gs]]; [done| |].
    + simpl in Hterms. rewrite app_nil_r in Hterms. by rewrite Hterms.
    + apply Forall_cons in Hne as [Hg Hne]. apply Forall_cons in Hne as [Hg' _].
      simpl in Hterms. apply (f_equal (@length term)) in Hterms.
      rewrite !length_app in Hterms. simpl in Hterms.
      destruct g; [done|]. destruct g'; [done|]. simpl in Hterms. lia.
  - destruct (parseTerms fuzzy caseMode w) as [|g gs]; [done|].
    apply Forall_cons in Hne as [Hg _]. simpl in Hterms. by destruct g.
Qed.

(** Whitespace between two terms. *)
Lemma parseTerms_and fuzzy caseMode q1 q2 sep :
  ToLower "" = "" -> separator sep = true ->
  yieldsTerm fuzzy caseMode (List.last (regexp.Split q1) "") = true ->
  yieldsTerm fuzzy caseMode (hd "" (regexp.Split q2)) = true ->
  parseTerms fuzzy caseMode (q1 +:+ sep +:+ q2)
  = parseTerms fuzzy caseMode q1 ++ parseTerms fuzzy caseMode q2.
Proof.
  intros Hlow Hsep Hlast Hfirst.
  rewrite !parseTerms_closeLast, parseLoop_Split_app by done.
  destruct (regexp.Split q1) as [|w1 T1 _] using rev_ind.
  { simpl in Hlast. by rewrite yieldsTerm_empty in Hlast. }
  rewrite List.last_last in Hlast.
  destruct (regexp.Split q2) as [|w2 T2] eqn:Hq2.
  { simpl in Hfirst. by rewrite yieldsTerm_empty in Hfirst. }
  simpl in Hfirst.
  rewrite parseLoop_app, !parseLoop_cons. cbn [parseLoop fold_left].
  fold (parseLoop fuzzy caseMode T1 (mkParseState [] [] false)).
  set (S0 := parseLoop fuzzy caseMode T1 (mkParseState [] [] false)).
  rewrite (parseStep_yields _ _ w1) by done.
  rewrite !(parseStep_yields _ _ w2) by done.
  set (t1 := tokenTerm fuzzy caseMode w1). set (t2 := tokenTerm fuzzy caseMode w2).
  fold (parseLoop fuzzy caseMode T2 (pushTerm (pushTerm S0 t1) t2)).
  fold (parseLoop fuzzy caseMode T2 (pushTerm (mkParseState [] [] false) t2)).
  replace (pushTerm (pushTerm S0 t1) t2)
    with (closedBefore (sets (pushTerm S0 t1) ++ [set (pushTerm S0 t1)])
            (pushTerm (mkParseState [] [] false) t2))
    by (unfold closedBefore, pushTerm; simpl; by rewrite app_nil_r).
  rewrite parseLoop_closedBefore, closeLast_closedBefore. f_equal.
  unfold closeLast, pushTerm. simpl. by rewrite length_app, Nat.add_comm.
Qed.

(** A [|] between two queries. *)
Lemma parseTerms_or fuzzy caseMode q1 q2 sep sep' :
  ToLower "" = "" -> ToLower "|" = "|" ->
  separator sep = true -> separator sep' = true ->
  parseTerms fuzzy caseMode (q1 +:+ sep +:+ "|" +:+ sep' +:+ q2)
  = joinOr (parseTerms fuzzy caseMode q1) (parseTerms fuzzy caseMode q2).
Proof.
  intros Hlow Hbar Hsep Hsep'.
  rewrite !parseTerms_closeLast, !parseLoop_Split_app by done.
  change (regexp.Split "|") with ["|"]. rewrite parseLoop_cons.
  cbn [parseLoop fold_left]. rewrite parseStep_bar by done.
  fold (parseLoop fuzzy caseMode (regexp.Split q1) (mkParseState [] [] false)).
  set (S1 := parseLoop fuzzy caseMode (regexp.Split q1) (mkParseState [] [] false)).
  fold (parseLoop fuzzy caseMode (regexp.Split q2)
          (mkParseState (sets S1) (set S1) false)).
  replace (mkParseState (sets S1) (set S1) false)
    with (openBefore (sets S1) (set S1) (mkParseState [] [] false))
    by (unfold openBefore; simpl; by rewrite app_nil_r).
  rewrite parseLoop_openBefore, closeLast_openBefore.
  - reflexivity.
  - by apply parseLoop_open_group.
  - by apply parseLoop_open_group.
Qed.

(** A token without text. *)
Lemma parseTerms_skip fuzzy caseMode q1 q2 sep sep' w :
  ToLower "" = "" -> separator sep = true -> separator sep' = true ->
  noSpace w = true -> yieldsTerm fuzzy caseMode w = false ->
  (foldToken caseMode w).2 <> "|" ->
  parseTerms fuzzy caseMode (q1 +:+ sep +:+ w +:+ sep' +:+ q2)
  = parseTerms fuzzy caseMode (q1 +:+ sep +:+ q2).
Proof.
  intros Hlow Hsep Hsep' Hw Hno Hbar.
  rewrite !parseTerms_closeLast, !parseLoop_Split_app by done.
  rewrite (Split_token w) by done. rewrite parseLoop_cons.
  cbn [parseLoop fold_left]. by rewrite parseStep_skips.
Qed.

(** C6: [parseTerms] splits the query on runs of whitespace and groups the
    tokens: a [|] token joins the next term to the current group, plain
    whitespace between two terms starts a new group.  For every query:
    one token gives one group of one term, or none when the token has no
    text; two queries around a run of whitespace, the first ending and the
    second starting with a term, parse to the groups of the first followed
    by the groups of the second; two queries around a [|] parse to the
    groups of both with the last group of the first and the first group of
    the second joined into one; a token without text that is not [|]
    changes nothing.  So, for all tokens [a], [b], [c] with text,
    ["a | b c"] parses to [[a,b],[c]], ["a b"] to [[a],[b]] and
    ["a | b | c"] to [[a,b,c]]. *)
Theorem parseTerms_groups fuzzy caseMode :
  ToLower "" = "" -> ToLower "|" = "|" ->
  (forall w, noSpace w = true ->
     parseTerms fuzzy caseMode w
     = if yieldsTerm fuzzy caseMode w
       then [[tokenTerm fuzzy caseMode w]] else [])
  /\ (forall q1 q2 sep, separator sep = true ->
        yieldsTerm fuzzy caseMode (List.last (regexp.Split q1) "") = true ->
        yieldsTerm fuzzy caseMode (List.hd "" (regexp.Split q2)) = true ->
        parseTerms fuzzy caseMode (q1 +:+ sep +:+ q2)
        = parseTerms fuzzy caseMode q1 ++ parseTerms fuzzy caseMode q2)
  /\ (forall q1 q2 sep sep', separator sep = true -> separator sep' = true ->
        parseTerms fuzzy caseMode (q1 +:+ sep +:+ "|" +:+ sep' +:+ q2)
        = joinOr (parseTerms fuzzy caseMode q1) (parseTerms fuzzy caseMode q2))
  /\ (forall q1 q2 sep sep' w,
        separator sep = true -> separator sep' = true -> noSpace w = true ->
        yieldsTerm fuzzy caseMode w = false ->
        (foldToken caseMode w).2 <> "|" ->
        parseTerms fuzzy caseMode (q1 +:+ sep +:+ w +:+ sep' +:+ q2)
        = parseTerms fuzzy caseMode (q1 +:+ sep +:+ q2))
  /\ (forall a b c,
        noSpace a = true -> noSpace b = true -> noSpace c = true ->
        yieldsTerm fuzzy caseMode a = true ->
        yieldsTerm fuzzy caseMode b = true ->
        yieldsTerm fuzzy caseMode c = true ->
        let ta := tokenTerm fuzzy caseMode a in
        let tb := tokenTerm fuzzy caseMode b in
        let tc := tokenTerm fuzzy caseMode c in
        parseTerms fuzzy caseMode (a +:+ " | " +:+ b +:+ " " +:+ c)
        = [[ta; tb]; [tc]]
        /\ parseTerms fuzzy caseMode (a +:+ " " +:+ b) = [[ta]; [tb]]
        /\ parseTerms fuzzy caseMode (a +:+ " | " +:+ b +:+ " | " +:+ c)
           = [[ta; tb; tc]]).
Proof.
  intros Hlow Hbar.
  split; [intros w Hw; by apply parseTerms_token|].
  split; [intros q1 q2 sep Hsep Hlast Hfirst; by apply parseTerms_and|].
  split; [intros q1 q2 sep sep' Hsep Hsep'; by apply parseTerms_or|].
  split; [intros q1 q2 sep sep' w Hsep Hsep' Hw Hno Hnot; by apply parseTerms_skip|].
  intros a b c Ha Hb Hc Hta Htb Htc ta tb tc.
  assert (forall x y, noSpace x = true -> noSpace y = true ->
                      yieldsTerm fuzzy caseMode x = true ->
                      yieldsTerm fuzzy caseMode y = true ->
                      parseTerms fuzzy caseMode (x +:+ " " +:+ y)
                      = [[tokenTerm fuzzy caseMode x]; [tokenTerm fuzzy caseMode y]])
    as Hand.
  { intros x y Hx Hy Htx Hty.
    rewrite (parseTerms_and _ _ x y " ") by (by rewrite ?Split_token).
    rewrite !parseTerms_token by done. by rewrite Htx, Hty. }
  assert (forall x q, noSpace x = true -> yieldsTerm fuzzy caseMode x = true ->
                      parseTerms fuzzy caseMode (x +:+ " | " +:+ q)
                      = joinOr [[tokenTerm fuzzy caseMode x]]
                          (parseTerms fuzzy caseMode q)) as Hor.
  { intros x q Hx Htx.
    change (x +:+ " | " +:+ q) with (x +:+ " " +:+ "|" +:+ " " +:+ q).
    rewrite parseTerms_or by done. rewrite parseTerms_token by done.
    by rewrite Htx. }
  split; [|split].
  - rewrite Hor, Hand by done. reflexivity.
  - by apply Hand.
  - rewrite !Hor by done. rewrite parseTerms_token by done. rewrite Htc.
    reflexivity.
Qed.
End GroupLaws.

(** ** Bytes and characters of a cache key *)

Section KeyCharacters.

Lemma charStarts_ascii pos s :
  isASCII s = true -> charStarts 0 pos s = seq pos (String.length s).
Proof.
  revert pos. induction s as [|c s IH]; intros pos; [done|]. simpl isASCII.
  intros [Hc Hs]%andb_true_iff. cbn [charStarts String.length seq].
  assert (utf8.size (String c s) = 1) as -> by (unfold utf8.size; by rewrite Hc).
  simpl. by rewrite IH.
Qed.

Lemma removeFirst_all d s : String.length s <= d -> removeFirst d s = "".
Proof.
  revert d. induction s as [|c s IH]; intros [|d] Hd; simpl in *; try done.
  - lia.
  - apply IH. lia.
Qed.

Lemma nth_seq_back n d : nth (n - d) (seq 0 n) n = n - d.
Proof.
  destruct (Nat.le_gt_cases n (n - d)) as [Hge|Hlt].
  - rewrite nth_overflow by (rewrite length_seq; lia). lia.
  - by rewrite seq_nth.
Qed.

(** On a key of ASCII bytes the characters are the bytes: the keys counted
    in characters are the keys the loop of [Match] tries. *)
Lemma charAncestorKeys_ascii key :
  isASCII key = true -> charAncestorKeys key = ancestorKeys key.
Proof.
  intros Hascii. unfold charAncestorKeys, ancestorKeys.
  rewrite charStarts_ascii, length_seq by done.
  apply flat_map_ext. intros d.
  unfold removeLastChars, removeFirstChars, removeLast.
  rewrite charStarts_ascii, length_seq by done.
  rewrite nth_seq_back. f_equal. f_equal.
  destruct (Nat.le_gt_cases (String.length key) d) as [Hge|Hlt].
  - rewrite nth_overflow by (rewrite length_seq; lia).
    by rewrite !removeFirst_all.
  - by rewrite seq_nth.
Qed.
End KeyCharacters.

(** ** The code on concrete inputs *)

Section Concrete.
Import Examples.
#[local] Existing Instance AsciiText.text.
#[local] Existing Instance Reference.env.

Example ancestorKeys_abcd :
  ancestorKeys "abcd" = ["abc"; "bcd"; "ab"; "cd"; "a"; "d"].
Proof. reflexivity. Qed.

(** The query [foo | bar baz] matches a line iff it holds [baz] and one of
    [foo] and [bar]. *)
Example or_and_lines :
  map (fun s => (MatchItem (extendedPattern CaseSmart "foo | bar baz")
                   (line 0 s)).1)
    ["foo baz"; "bar baz"; "baz"; "foo"; "xbaz bar"]
  = [true; true; false; false; true].
Proof. vm_compute. reflexivity. Qed.

(** [!foo] fails on [foobar] and matches [bar] with the placeholder. *)
Example inverted_lines :
  (MatchItem (extendedPattern CaseSmart "!foo") (line 0 "foobar")).1 = false
  /\ (extendedMatch (extendedPattern CaseSmart "!foo") (line 0 "bar")).1
     = [(0, 0, 0)%Z].
Proof. vm_compute. done. Qed.

(** Witness for [extendedMatch_semantics]. *)
Lemma extendedMatch_semantics_witness :
  p_extended (extendedPattern CaseSmart "foo | !bar baz") = true
  /\ ((MatchItem (extendedPattern CaseSmart "foo | !bar baz")
         (line 0 "a baz")).1 = true
      <-> length (extendedMatch (extendedPattern CaseSmart "foo | !bar baz")
                    (line 0 "a baz")).1
          = length (p_termSets (extendedPattern CaseSmart "foo | !bar baz"))).
Proof.
  split; [reflexivity|].
  exact (proj1 (extendedMatch_semantics
                  (extendedPattern CaseSmart "foo | !bar baz")
                  (line 0 "a baz") eq_refl)).
Defined.

(** Witness for [BuildPattern_cacheable_iff]. *)
Lemma BuildPattern_cacheable_iff_witness :
  _patternCache emptyStore !! normalize true (AsciiText.decode "foo ^bar") = None
  /\ exists p,
      let r := BuildPattern emptyStore true true CaseSmart true [] tt
                 (AsciiText.decode "foo ^bar") in
      heap r.2 !! r.1 = Some p
      /\ p_extended p = true
      /\ p_termSets p
         = parseTerms true CaseSmart (normalize true (AsciiText.decode "foo ^bar"))
      /\ (p_cacheable p = true
          <-> Forall (fun ts : termSet => length ts = 1) (p_termSets p)
              /\ Forall (fun t => t_inv t = false) (concat (p_termSets p))).
Proof.
  split; [reflexivity|].
  apply (BuildPattern_cacheable_iff emptyStore true CaseSmart true [] tt
           (AsciiText.decode "foo ^bar")).
  reflexivity.
Defined.

(** C5 as stated fails: under [CaseIgnore] the query [Foo] builds a
    cacheable extended Pattern whose key is [foo], not the text as typed. *)
Lemma CacheKey_unfolded_counterexample :
  let p := extendedPattern CaseIgnore "Foo" in
  p_extended p = true /\ p_cacheable p = true
  /\ CacheKey p = "foo"
  /\ unfoldedKey true CaseIgnore "Foo" = "Foo"
  /\ CacheKey p <> unfoldedKey true CaseIgnore "Foo".
Proof. vm_compute. repeat split; discriminate. Qed.

(** Witness for [CacheKey_folded_texts]. *)
Lemma CacheKey_folded_texts_witness :
  _patternCache emptyStore !! normalize true (AsciiText.decode "Foo ^bar") = None
  /\ exists p,
      let r := BuildPattern emptyStore true true CaseIgnore true [] tt
                 (AsciiText.decode "Foo ^bar") in
      heap r.2 !! r.1 = Some p
      /\ map t_origText (concat (p_termSets p))
         = map (fun token => runes_of_string (foldToken CaseIgnore token).2)
             (List.filter (yieldsTerm true CaseIgnore)
                (regexp.Split (normalize true (AsciiText.decode "Foo ^bar"))))
      /\ (p_cacheable p = true ->
          CacheKey p
          = foldedKey true CaseIgnore (normalize true (AsciiText.decode "Foo ^bar"))).
Proof.
  split; [reflexivity|].
  apply (CacheKey_folded_texts emptyStore true CaseIgnore true [] tt
           (AsciiText.decode "Foo ^bar")).
  reflexivity.
Defined.

(** Witness for [Match_ancestor_order]. *)
Lemma Match_ancestor_order_witness :
  Find cacheFo lines3 (CacheKey (extendedPattern CaseSmart "foo")) = None
  /\ (Match (extendedPattern CaseSmart "foo") cacheFo lines3).1
     = matchChunk (extendedPattern CaseSmart "foo")
         (default (items lines3)
            (firstCached cacheFo lines3
               (ancestorKeys (CacheKey (extendedPattern CaseSmart "foo"))))).
Proof.
  split; [reflexivity|].
  refine (proj1 (proj2 (Match_ancestor_order (extendedPattern CaseSmart "foo")
                          cacheFo lines3 _))).
  vm_compute. reflexivity.
Defined.

(** C8 as stated fails for a key with a character of several bytes.  With
    the results of the queries e-acute and [ab] cached, the key made of
    e-acute, [a] and [b] has the ancestors e-acute [a], [ab], e-acute, [b]
    when characters are removed, so that the entry of [ab] (lines 0 and 1)
    comes first; [Match] removes bytes, tries e-acute before [ab] at the
    drop length 2, and scans the entry of e-acute (lines 0 and 2). *)
Lemma Match_ancestor_order_counterexample :
  CacheKey (extendedPattern CaseSmart (eAcute +:+ "ab")) = eAcute +:+ "ab"
  /\ Find cacheE linesE (eAcute +:+ "ab") = None
  /\ charAncestorKeys (eAcute +:+ "ab")
     = [eAcute +:+ "a"; "ab"; eAcute; "b"]
  /\ ancestorKeys (eAcute +:+ "ab")
     = [eAcute +:+ "a"; String "169" "ab"; eAcute; "ab"; String "195" ""; "b"]
  /\ map i_index
       (default (items linesE)
          (firstCached cacheE linesE (charAncestorKeys (eAcute +:+ "ab"))))
     = [0; 1]%Z
  /\ map i_index (searchSpace cacheE linesE (eAcute +:+ "ab")) = [0; 2]%Z
  /\ searchSpace cacheE linesE (eAcute +:+ "ab")
     <> default (items linesE)
          (firstCached cacheE linesE (charAncestorKeys (eAcute +:+ "ab")))
  /\ (Match (extendedPattern CaseSmart (eAcute +:+ "ab")) cacheE linesE).1
     = matchChunk (extendedPattern CaseSmart (eAcute +:+ "ab"))
         (searchSpace cacheE linesE (eAcute +:+ "ab")).
Proof.
  split; [vm_compute; reflexivity|]. split; [vm_compute; reflexivity|].
  split; [vm_compute; reflexivity|]. split; [vm_compute; reflexivity|].
  split; [vm_compute; reflexivity|]. split; [vm_compute; reflexivity|].
  split; [|vm_compute; reflexivity].
  intros Heq. apply (f_equal (map i_index)) in Heq. vm_compute in Heq.
  discriminate.
Qed.

(** C4 as stated fails: [foo !x] is not cacheable, its key is [foo], and
    with the result of [fo] in the cache [Match] scans that result (two
    items) instead of the chunk (three items). *)
Lemma Match_not_cacheable_counterexample :
  let p := extendedPattern CaseSmart "foo !x" in
  p_cacheable p = false
  /\ CacheKey p = "foo"
  /\ map i_index (items lines3) = [0; 1; 2]%Z
  /\ map i_index (searchSpace cacheFo lines3 (CacheKey p)) = [0; 2]%Z
  /\ searchSpace cacheFo lines3 (CacheKey p) <> items lines3
  /\ Match p cacheFo lines3
     = (matchChunk p (searchSpace cacheFo lines3 (CacheKey p)), cacheFo).
Proof.
  split; [vm_compute; reflexivity|]. split; [vm_compute; reflexivity|].
  split; [vm_compute; reflexivity|]. split; [vm_compute; reflexivity|].
  split; [|vm_compute; reflexivity].
  intros Heq. apply (f_equal (@length Item)) in Heq. vm_compute in Heq.
  discriminate.
Qed.

(** Witness for [Match_not_cacheable]. *)
Lemma Match_not_cacheable_witness :
  p_cacheable (extendedPattern CaseSmart "foo !x") = false
  /\ Match (extendedPattern CaseSmart "foo !x") cacheFo lines3
     = (matchChunk (extendedPattern CaseSmart "foo !x")
          (default (items lines3)
             (firstCached cacheFo lines3
                (ancestorKeys (CacheKey (extendedPattern CaseSmart "foo !x"))))),
        cacheFo).
Proof.
  split; [reflexivity|].
  exact (proj1 (Match_not_cacheable (extendedPattern CaseSmart "foo !x")
                  cacheFo lines3 eq_refl)).
Defined.

(** Witness for [BuildPattern_basic_cache_key]. *)
Lemma BuildPattern_basic_cache_key_witness :
  _patternCache emptyStore !! normalize false (AsciiText.decode "Foo") = None
  /\ exists p,
      let r := BuildPattern emptyStore true false CaseIgnore true [] tt
                 (AsciiText.decode "Foo") in
      heap r.2 !! r.1 = Some p
      /\ p_extended p = false /\ p_cacheable p = true
      /\ CacheKey p = string_of_runes (p_text p).
Proof.
  split; [reflexivity|].
  destruct (BuildPattern_basic_cache_key emptyStore true CaseIgnore true [] tt
              (AsciiText.decode "Foo") eq_refl)
    as (p & Hp & Hext & Hc & _ & _ & Hkey & _).
  exists p. auto.
Defined.

(** The same with the reference matchers on a chunk of two lines: [^ab]
    caches the line [abc]; [x^ab] then scans that entry only and misses the
    line [x^ab], which a scan of the chunk finds. *)
Example anchored_ancestor_lines :
  let chunk := chunkAt 0 ["x^ab"; "abc"] in
  let p1 := extendedPattern CaseSmart "^ab" in
  let p2 := extendedPattern CaseSmart "x^ab" in
  let cc := (Match p1 NewChunkCache chunk).2 in
  p_cacheable p1 = true /\ p_cacheable p2 = true
  /\ map i_index (Match p1 NewChunkCache chunk).1 = [1%Z]
  /\ Find cc chunk (CacheKey p2) = None
  /\ ancestorKeys (CacheKey p2) = ["x^a"; "^ab"; "x^"; "ab"; "x"; "b"]
  /\ firstCached cc chunk (ancestorKeys (CacheKey p2))
     = Some (Match p1 NewChunkCache chunk).1
  /\ (Match p2 cc chunk).1 = []
  /\ map i_index (matchChunk p2 (items chunk)) = [0%Z].
Proof. vm_compute. repeat split; reflexivity. Qed.

(** Witness for [Match_anchored_ancestor_diverges]: the reference matchers. *)
Lemma Match_anchored_ancestor_diverges_witness :
  ((PrefixMatch false true (AsciiText.decode "x^ab") (AsciiText.decode "ab")).1
   < 0)%Z
  /\ (0 <= (FuzzyMatch false true (AsciiText.decode "x^ab")
             (AsciiText.decode "x^ab")).1 < 2 ^ 63)%Z
  /\ (Match (newPattern true true CaseSmart true [] tt "x^ab").1
        (Match (newPattern true true CaseSmart true [] tt "^ab").1 NewChunkCache
           (chunkAt 0 ["x^ab"])).2
        (chunkAt 0 ["x^ab"])).1 = []
  /\ length (matchChunk (newPattern true true CaseSmart true [] tt "x^ab").1
               (items (chunkAt 0 ["x^ab"]))) = 1.
Proof.
  split; [reflexivity|]. split; [by vm_compute|].
  destruct (@Match_anchored_ancestor_diverges Reference.env tt tt tt)
    as (_ & _ & _ & _ & _ & _ & _ & Hcached & Hfull);
    [reflexivity|by vm_compute|].
  split; [exact Hcached|exact Hfull].
Defined.

(** Witness for [BuildPattern_basic_rebuilds]: the query [Foo] under
    [CaseIgnore], from the empty memo table. *)
Lemma BuildPattern_basic_rebuilds_witness :
  ToLower (normalize false (AsciiText.decode "Foo"))
  <> normalize false (AsciiText.decode "Foo")
  /\ _patternCache emptyStore !! normalize false (AsciiText.decode "Foo") = None
  /\ (build emptyStore false CaseIgnore "Foo").1 = 0
  /\ _patternCache (build emptyStore false CaseIgnore "Foo").2 !! "Foo" = None
  /\ _patternCache (build emptyStore false CaseIgnore "Foo").2 !! "foo" = Some 0
  /\ (build (build emptyStore false CaseIgnore "Foo").2 false CaseIgnore "Foo").1
     = 1.
Proof.
  split; [discriminate|]. split; [reflexivity|].
  destruct (@BuildPattern_basic_rebuilds AsciiText.text Reference.env emptyStore
              true true [] tt (AsciiText.decode "Foo"))
    as (H1 & Hgiven & Hfolded & H2 & _); [discriminate|reflexivity|].
  split; [exact H1|]. split; [exact Hgiven|]. split; [exact Hfolded|exact H2].
Defined.

(** In extended mode the same query is found again. *)
Example extended_memo_hit :
  let r1 := build emptyStore true CaseIgnore "Foo" in
  let r2 := build r1.2 true CaseIgnore " Foo " in
  r1.1 = 0 /\ r2.1 = 0 /\ length (heap r2.2) = 1.
Proof. vm_compute. done. Qed.

(** Witness for [parseTerms_groups]: fuzzy mode and smart case on ASCII
    text; the three queries, and [a b | c], where the [|] comes after a
    group was closed. *)
Lemma parseTerms_groups_witness :
  ToLower "" = "" /\ ToLower "|" = "|"
  /\ parseTerms true CaseSmart "a | b c"
     = [[bare true CaseSmart "a"; bare true CaseSmart "b"];
        [bare true CaseSmart "c"]]
  /\ parseTerms true CaseSmart "a b"
     = [[bare true CaseSmart "a"]; [bare true CaseSmart "b"]]
  /\ parseTerms true CaseSmart "a | b | c"
     = [[bare true CaseSmart "a"; bare true CaseSmart "b";
         bare true CaseSmart "c"]]
  /\ parseTerms true CaseSmart "a b | c"
     = [[bare true CaseSmart "a"];
        [bare true CaseSmart "b"; bare true CaseSmart "c"]].
Proof.
  destruct (@parseTerms_groups AsciiText.text true CaseSmart eq_refl eq_refl)
    as (_ & _ & Hor & _ & Hthree).
  destruct (Hthree "a" "b" "c" eq_refl eq_refl eq_refl eq_refl eq_refl eq_refl)
    as (Hquery1 & Hquery2 & Hquery3).
  split; [reflexivity|]. split; [reflexivity|].
  split; [exact Hquery1|]. split; [exact Hquery2|]. split; [exact Hquery3|].
  exact (Hor "a b" "c" " " " " eq_refl eq_refl).
Defined.

(** Witness for [parseTerms_stray_bar]. *)
Lemma parseTerms_stray_bar_witness :
  ToLower "" = "" /\ ToLower "|" = "|"
  /\ parseTerms true CaseSmart ("| " +:+ "a ^b") = parseTerms true CaseSmart "a ^b"
  /\ parseTerms true CaseSmart ("a ^b" +:+ " |") = parseTerms true CaseSmart "a ^b".
Proof.
  split; [reflexivity|]. split; [reflexivity|].
  apply (parseTerms_stray_bar true CaseSmart "a ^b"); reflexivity.
Defined.

(** Witness for [parseTerms_blank]. *)
Lemma parseTerms_blank_witness :
  ToLower "" = "" /\ onlySpace "   " = true
  /\ parseTerms true CaseSmart "   " = [].
Proof.
  split; [reflexivity|]. split; [reflexivity|].
  apply (parseTerms_blank true CaseSmart "   "); reflexivity.
Defined.

(** Witness for [iter_hit_iff]: two fields, the second at rune 4. *)
Lemma iter_hit_iff_witness :
  Forall (fun k => (0 <= prefixLength k
                    /\ (FuzzyMatch true true (k_text k) (AsciiText.decode "fo")).1
                       + prefixLength k < 2 ^ 63)%Z)
    [mkToken (AsciiText.decode "abc") 0 3; mkToken (AsciiText.decode "xfoo") 4 4]
  /\ (0 <=? (iter FuzzyMatch
               [mkToken (AsciiText.decode "abc") 0 3;
                mkToken (AsciiText.decode "xfoo") 4 4]
               true true (AsciiText.decode "fo")).1.1)%Z
     = existsb (fun k => (0 <=? (FuzzyMatch true true (k_text k)
                                   (AsciiText.decode "fo")).1)%Z)
         [mkToken (AsciiText.decode "abc") 0 3;
          mkToken (AsciiText.decode "xfoo") 4 4].
Proof.
  assert (Forall (fun k =>
            (0 <= prefixLength k
             /\ (FuzzyMatch true true (k_text k) (AsciiText.decode "fo")).1
                + prefixLength k < 2 ^ 63)%Z)
            [mkToken (AsciiText.decode "abc") 0 3;
             mkToken (AsciiText.decode "xfoo") 4 4]) as Hfields.
  { repeat (apply Forall_cons; split; [split; [by vm_compute|by vm_compute]|]).
    constructor. }
  split; [exact Hfields|].
  exact (iter_hit_iff FuzzyMatch _ true true (AsciiText.decode "fo")
           Hfields).
Defined.

(** Witness for [matchChunk_narrowing]: [foo] within the result of [fo]. *)
Lemma matchChunk_narrowing_witness :
  p_nth (extendedPattern CaseSmart "fo") = p_nth (extendedPattern CaseSmart "foo")
  /\ p_delimiter (extendedPattern CaseSmart "fo")
     = p_delimiter (extendedPattern CaseSmart "foo")
  /\ Forall (fun item =>
               (MatchItem (extendedPattern CaseSmart "foo") item).1 = true ->
               (MatchItem (extendedPattern CaseSmart "fo") item).1 = true)
       (items lines3)
  /\ matchChunk (extendedPattern CaseSmart "foo")
       (matchChunk (extendedPattern CaseSmart "fo") (items lines3))
     = matchChunk (extendedPattern CaseSmart "foo") (items lines3).
Proof.
  assert (Forall (fun item =>
               (MatchItem (extendedPattern CaseSmart "foo") item).1 = true ->
               (MatchItem (extendedPattern CaseSmart "fo") item).1 = true)
            (items lines3)) as Hsuper.
  { repeat (apply Forall_cons; split; [by vm_compute|]). constructor. }
  split; [reflexivity|]. split; [reflexivity|]. split; [exact Hsuper|].
  exact (matchChunk_narrowing (extendedPattern CaseSmart "foo")
           (extendedPattern CaseSmart "fo") (items lines3) eq_refl eq_refl Hsuper).
Defined.

(** Witness for [IsEmpty_matches_all]: the query of a lone [|]. *)
Lemma IsEmpty_matches_all_witness :
  p_extended (extendedPattern CaseSmart " | ") = true
  /\ IsEmpty (extendedPattern CaseSmart " | ") = true
  /\ matchChunk (extendedPattern CaseSmart " | ") (items lines3)
     = map (matchedCopy (extendedPattern CaseSmart " | ")) (items lines3).
Proof.
  split; [reflexivity|]. split; [reflexivity|].
  exact (proj2 (IsEmpty_matches_all (extendedPattern CaseSmart " | ")
                  (items lines3) eq_refl eq_refl)).
Defined.

(** Witness for [searchSpace_shorter_keys]: the key [foo] has the four
    ancestors [fo], [oo], [f] and [o]; the cache holds an entry under [fo]
    for another chunk and an entry of the chunk under a longer key. *)
Lemma searchSpace_shorter_keys_witness :
  (forall key', 0 < String.length key' < String.length "foo" ->
                Find cacheFoFooo lines3' key' = None)
  /\ Find cacheFoFooo lines3 "fo" <> None
  /\ Find cacheFoFooo lines3' "fooo" <> None
  /\ searchSpace cacheFoFooo lines3' "foo" = items lines3'.
Proof.
  assert (forall key', 0 < String.length key' < String.length "foo" ->
                       Find cacheFoFooo lines3' key' = None) as Hnone.
  { intros key' Hlen. unfold cacheFoFooo.
    rewrite Find_Add_ne by (intros [= ->]; simpl in Hlen; lia).
    replace cacheFo
      with (Add NewChunkCache lines3 "fo"
              (Match (extendedPattern CaseSmart "fo") NewChunkCache lines3).1)
      by (vm_compute; reflexivity).
    rewrite Find_Add_ne by (intros [=]). apply Find_empty. }
  split; [exact Hnone|]. split; [vm_compute; discriminate|].
  split; [vm_compute; discriminate|].
  exact (searchSpace_shorter_keys cacheFoFooo lines3' "foo" Hnone).
Defined.

(** Witness for [CacheKey_skips_group]: [foo !x] and [foo]. *)
Lemma CacheKey_skips_group_witness :
  p_extended (extendedPattern CaseSmart "foo !x") = true
  /\ p_extended (extendedPattern CaseSmart "foo") = true
  /\ p_termSets (extendedPattern CaseSmart "foo !x")
     = p_termSets (extendedPattern CaseSmart "foo")
       ++ [mkTerm termFuzzy true (AsciiText.decode "x") false
             (AsciiText.decode "!x")] :: []
  /\ CacheKey (extendedPattern CaseSmart "foo !x")
     = CacheKey (extendedPattern CaseSmart "foo").
Proof.
  split; [reflexivity|]. split; [reflexivity|]. split; [reflexivity|].
  apply (CacheKey_skips_group
           (extendedPattern CaseSmart "foo !x") (extendedPattern CaseSmart "foo")
           (p_termSets (extendedPattern CaseSmart "foo")) []
           [mkTerm termFuzzy true (AsciiText.decode "x") false
              (AsciiText.decode "!x")]);
    [reflexivity|reflexivity|reflexivity|by rewrite app_nil_r|reflexivity].
Defined.

(** Witness for [BuildPattern_memo_hit]: basic mode, smart case. *)
Lemma BuildPattern_memo_hit_witness :
  normalize false (AsciiText.decode "Foo") = normalize false (AsciiText.decode "Foo")
  /\ (false = true \/ CaseSmart <> CaseIgnore
      \/ ToLower (normalize false (AsciiText.decode "Foo"))
         = normalize false (AsciiText.decode "Foo"))
  /\ build (build emptyStore false CaseSmart "Foo").2 false CaseSmart "Foo"
     = ((build emptyStore false CaseSmart "Foo").1,
        (build emptyStore false CaseSmart "Foo").2).
Proof.
  split; [reflexivity|]. split; [right; left; discriminate|].
  apply (BuildPattern_memo_hit emptyStore true false
           CaseSmart true [] tt (AsciiText.decode "Foo") (AsciiText.decode "Foo"));
    [reflexivity|right; left; discriminate].
Defined.

(** Witness for [BuildPattern_hit_keeps_first_modes]: a fuzzy query asked
    again as an exact one. *)
Lemma BuildPattern_hit_keeps_first_modes_witness :
  _patternCache emptyStore !! normalize true (AsciiText.decode "foo") = None
  /\ BuildPattern (build emptyStore true CaseSmart "foo").2 false true CaseRespect
       false [] tt (AsciiText.decode "foo")
     = build emptyStore true CaseSmart "foo".
Proof.
  split; [reflexivity|].
  exact (proj1 (BuildPattern_hit_keeps_first_modes
                  emptyStore true false CaseSmart CaseRespect true false [] [] tt tt
                  (AsciiText.decode "foo") eq_refl)).
Defined.

(** Witness for [BuildPattern_keeps_pointers]: from the empty store. *)
Lemma BuildPattern_keeps_pointers_witness :
  memoOk emptyStore
  /\ memoOk (build emptyStore true CaseSmart "foo").2
  /\ is_Some (heap (build emptyStore true CaseSmart "foo").2
              !! (build emptyStore true CaseSmart "foo").1).
Proof.
  assert (memoOk emptyStore) as Hok by (intros key ptr Hkey; discriminate Hkey).
  split; [exact Hok|].
  destruct (BuildPattern_keeps_pointers emptyStore
              true true CaseSmart true [] tt (AsciiText.decode "foo") Hok)
    as (Hok' & Hptr & _).
  split; [exact Hok'|exact Hptr].
Defined.

(** Witness for [regex_compiles_once]: an expression is the pattern itself. *)
Lemma regex_compiles_once_witness :
  migemo.regex string unit (fun _ pattern => inl pattern)
    (migemo.mkState string unit ∅ tt) "ab"
  = Returned ("ab", migemo.mkState string unit (<["ab" := "ab"]> ∅) tt)
  /\ forall compile',
       migemo.regex string unit compile'
         (migemo.mkState string unit (<["ab" := "ab"]> ∅) tt) "ab"
       = Returned ("ab", migemo.mkState string unit (<["ab" := "ab"]> ∅) tt).
Proof.
  split; [reflexivity|].
  exact (proj1 (proj2 (regex_compiles_once (Regexp:=string) (Dict:=unit)
                         (fun _ pattern => inl pattern)
                         (migemo.mkState string unit ∅ tt) "ab" "ab"
                         (migemo.mkState string unit (<["ab" := "ab"]> ∅) tt)
                         eq_refl))).
Defined.


End Concrete.

